(** * pools: pooled buffers and placeholder writers (buffer.go)

    A shallow embedding of [buffer.go] of SermoDigital/pools.

    - Go's [int] is the 64-bit two's-complement integer (the [cache] table
      holds constants that only fit a 64-bit [int]); every [+], [-] and [*]
      of the source is written with its wrap-around ([Int.add], ...).
    - A [*Buffer] receiver is threaded through as an explicit state.
    - A Go [panic] is the outcome [Panic]; loops take a fuel and give
      [OutOfFuel] when it is exhausted.
    - The embedded [bytes.Buffer] is its contents. Memory is not modelled:
      [Grow] panics on a negative count only, not with
      ["bytes.Buffer: too large"] on a count the allocator refuses. A
      statement that a call returns therefore bounds the request of [grow]
      wherever that request can be large while the text is small. *)

From Stdlib Require Import ZArith Lia List Bool Ascii String.
From Stdlib Require Import Setoid Morphisms RelationClasses.
Import ListNotations.

Local Open Scope string_scope.
Local Open Scope Z_scope.

(* ================================================================== *)
(** ** Go's [int] *)

Module Int.

Definition modulus : Z := 18446744073709551616.   (* 2^64 *)
Definition min_int : Z := -9223372036854775808.
Definition max_int : Z := 9223372036854775807.

(** Reduction of a mathematical integer to the two's-complement range. *)
Definition wrap (z : Z) : Z := (z - min_int) mod modulus + min_int.

Definition in_range (z : Z) : Prop := min_int <= z <= max_int.

Definition add (a b : Z) : Z := wrap (a + b).
Definition sub (a b : Z) : Z := wrap (a - b).
Definition mul (a b : Z) : Z := wrap (a * b).

(** [x >> k] on a signed operand is the arithmetic shift, which is
    [Z.shiftr] on [Z]; [^x] is [Z.lnot]; [x & y] is [Z.land]. None of
    them leaves the range. *)
Definition shr (x k : Z) : Z := Z.shiftr x k.
Definition not (x : Z) : Z := Z.lnot x.
Definition and (x y : Z) : Z := Z.land x y.

End Int.

(* ================================================================== *)
(** ** Outcomes of a call *)

Inductive result (A : Type) : Type :=
| Ret (a : A)
| Panic (msg : string)
| OutOfFuel.

Arguments Ret {A} a.
Arguments Panic {A} msg.
Arguments OutOfFuel {A}.

Definition bind {A B : Type} (m : result A) (k : A -> result B) : result B :=
  match m with
  | Ret a => k a
  | Panic msg => Panic msg
  | OutOfFuel => OutOfFuel
  end.

Notation "x <- m ;; k" := (bind m (fun x => k))
  (at level 61, m at next level, right associativity).
Notation "' pat <- m ;; k" := (bind m (fun x => match x with pat => k end))
  (at level 61, pat pattern, m at next level, right associativity).

(* ================================================================== *)
(** ** strconv.Itoa *)

Definition digit_char (d : Z) : ascii :=
  match d with
  | 0 => "0" | 1 => "1" | 2 => "2" | 3 => "3" | 4 => "4"
  | 5 => "5" | 6 => "6" | 7 => "7" | 8 => "8" | _ => "9"
  end%char.

(** Digits of a non-negative number, least significant first, pushed in
    front of [acc]. Twenty rounds cover every 64-bit magnitude. *)
Fixpoint format_bits (rounds : nat) (u : Z) (acc : string) : string :=
  match rounds with
  | O => acc
  | S r =>
      let acc' := String (digit_char (u mod 10)) acc in
      if u <? 10 then acc' else format_bits r (u / 10) acc'
  end.

Definition Itoa (i : Z) : string :=
  if i <? 0 then String "-"%char (format_bits 20 (- i) "")
  else format_bits 20 i "".

(* ================================================================== *)
(** ** The buffer *)

Record Buffer : Type := mkBuffer {
  unsafe : Z;        (* uint32: 1 if UnsafeBytes was called *)
  buf : string       (* contents of the embedded bytes.Buffer *)
}.

Definition WriteString (s : string) (w : Buffer) : Buffer :=
  mkBuffer (unsafe w) (buf w ++ s).

Definition WriteByte (c : ascii) (w : Buffer) : Buffer :=
  mkBuffer (unsafe w) (buf w ++ String c "").

Definition Len (w : Buffer) : Z := Z.of_nat (String.length (buf w)).

Definition Reset (w : Buffer) : Buffer := mkBuffer (unsafe w) "".

Definition Bytes (w : Buffer) : string := buf w.

Definition Grow (n : Z) (w : Buffer) : result Buffer :=
  if n <? 0 then Panic "bytes.Buffer.Grow: negative count" else Ret w.

Definition WriteInt (i : Z) (w : Buffer) : Buffer := WriteString (Itoa i) w.

Definition WriteInt64 (i : Z) (w : Buffer) : Buffer := WriteString (Itoa i) w.

(* ================================================================== *)
(** ** The width table and [totalWidth] *)

(** [{pow, sum}] *)
Definition cache : list (Z * Z) :=
  [ (0, 0);
    (9, 9);
    (99, 189);
    (999, 2889);
    (9999, 38889);
    (99999, 488889);
    (999999, 5888889);
    (9999999, 68888889);
    (99999999, 788888889);
    (999999999, 8888888889);
    (9999999999, 98888888889);
    (99999999999, 1088888888889);
    (999999999999, 11888888888889);
    (9999999999999, 128888888888889);
    (99999999999999, 1388888888888889);
    (999999999999999, 14888888888888889);
    (9999999999999999, 158888888888888889);
    (99999999999999999, 1688888888888888889) ].

(** [cache[i]]; an index outside the array panics in Go. *)
Definition cache_at (i : Z) : result (Z * Z) :=
  if i <? 0 then Panic "index out of range"
  else match nth_error cache (Z.to_nat i) with
       | Some e => Ret e
       | None => Panic "index out of range"
       end.

(** [for i := 3; ; i++ { if n <= cache[i][0] { return ... } }] *)
Fixpoint totalWidth_scan (fuel : nat) (n add i : Z) : result Z :=
  match fuel with
  | O => OutOfFuel
  | S fuel' =>
      '(pow, _) <- cache_at i ;;
      if n <=? pow then
        '(ppow, psum) <- cache_at (Int.sub i 1) ;;
        Ret (Int.add (Int.add (Int.mul (Int.sub n ppow) i) psum)
                     (Int.mul n add))
      else totalWidth_scan fuel' n add (Int.add i 1)
  end.

(** The scan either returns or indexes past the table, so the length of the
    table is fuel enough. *)
Definition totalWidth (n add : Z) : result Z :=
  if n <=? 0 then Ret add
  else if n <? 10 then Ret (Int.add n (Int.mul n add))
  else if n <? 100 then Ret (Int.add (Int.sub (Int.mul n 2) 9) (Int.mul n add))
  else
    '(top, _) <- cache_at (Int.sub (Z.of_nat (List.length cache)) 1) ;;
    if top <? n then Ret 0
    else totalWidth_scan (List.length cache) n add 3.

(* ================================================================== *)
(** ** [grow] *)

(** [const intSize = (32 << (^uint(0) >> 63)) - 1], with [^uint(0)] the
    all-ones 64-bit word. *)
Definition intSize : Z :=
  Z.shiftl 32 (Z.shiftr (Int.modulus - 1) 63) - 1.

(** [x & ^(x >> intSize)] *)
Definition clamp (x : Z) : Z := Int.and x (Int.not (Int.shr x intSize)).

(** The argument [grow] hands to [bytes.Buffer.Grow]. *)
Definition grow_request (start end_ num : Z) : result Z :=
  width <- totalWidth (Int.add (Int.sub end_ start) 1) 3 ;;
  let x := Int.sub (Int.mul (Int.add width 2) num) 2 in
  Ret (clamp x).

Definition grow (start end_ num : Z) (w : Buffer) : result Buffer :=
  n <- grow_request start end_ num ;;
  Grow n w.

(* ================================================================== *)
(** ** [WriteGroups] *)

Inductive error : Type :=
| errors_New (msg : string).

(** [for _, v := range prefix { w.WriteInt(v); w.WriteString(", $") }] *)
Definition write_prefix (prefix : list Z) (w : Buffer) : Buffer :=
  fold_left (fun w v => WriteString ", $" (WriteInt v w)) prefix w.

(** [for i := 1; i < groupLen; i, offset = i+1, offset+1 { ... }] *)
Fixpoint writeGroup_loop (fuel : nat) (i offset groupLen : Z) (w : Buffer)
  : result Buffer :=
  match fuel with
  | O => OutOfFuel
  | S fuel' =>
      if i <? groupLen then
        let w := WriteString ", $" w in
        let w := WriteInt (Int.add offset 1) w in
        writeGroup_loop fuel' (Int.add i 1) (Int.add offset 1) groupLen w
      else Ret w
  end.

Definition writeGroup (fuel : nat) (prefix : list Z) (offset groupLen : Z)
    (w : Buffer) : result (Z * Buffer) :=
  let w := WriteString " ($" w in
  let w := write_prefix prefix w in
  let w := WriteInt offset w in
  w <- writeGroup_loop fuel 1 offset groupLen w ;;
  let w := WriteByte ")" w in
  Ret (groupLen, w).

(** [for groups--; groups > 0; groups-- { ... }], entered after the
    initial [groups--]. [inner] is the fuel of each [writeGroup]. *)
Fixpoint WriteGroups_loop (fuel inner : nat) (prefix : list Z)
    (offset groupLen groups : Z) (w : Buffer) : result Buffer :=
  match fuel with
  | O => OutOfFuel
  | S fuel' =>
      if 0 <? groups then
        let w := WriteByte "," w in
        '(n, w) <- writeGroup inner prefix offset groupLen w ;;
        WriteGroups_loop fuel' inner prefix (Int.add offset n) groupLen
                         (Int.sub groups 1) w
      else Ret w
  end.

Definition WriteGroups (fuel : nat) (offset groupLen groups : Z)
    (prefix : list Z) (w : Buffer) : result (option error * Buffer) :=
  if (offset <? 0) || (groups =? 0) then
    Ret (Some (errors_New "invalid arguments to WriteGroups"), w)
  else
    w <- grow 0 groupLen groups w ;;
    '(n, w) <- writeGroup fuel prefix offset groupLen w ;;
    let offset := Int.add offset n in
    w <- WriteGroups_loop fuel fuel prefix offset groupLen
                          (Int.sub groups 1) w ;;
    Ret (None, w).

(* ================================================================== *)
(** ** [WriteInterval] *)

(** [for i := start; i < end; i++ { ", $"; WriteInt(i + 1) }] *)
Fixpoint WriteInterval_items (fuel : nat) (i end_ : Z) (w : Buffer)
  : result Buffer :=
  match fuel with
  | O => OutOfFuel
  | S fuel' =>
      if i <? end_ then
        let w := WriteString ", $" w in
        let w := WriteInt (Int.add i 1) w in
        WriteInterval_items fuel' (Int.add i 1) end_ w
      else Ret w
  end.

(** [for num--; num > 0; num-- { ... }], entered after the initial
    [num--]. *)
Fixpoint WriteInterval_loop (fuel inner : nat) (start end_ num : Z)
    (w : Buffer) : result Buffer :=
  match fuel with
  | O => OutOfFuel
  | S fuel' =>
      if 0 <? num then
        let w := WriteString ", ($" w in
        let w := WriteInt start w in
        w <- WriteInterval_items inner start end_ w ;;
        let w := WriteByte ")" w in
        WriteInterval_loop fuel' inner start end_ (Int.sub num 1) w
      else Ret w
  end.

Definition WriteInterval (fuel : nat) (start end_ num : Z) (w : Buffer)
  : result (option error * Buffer) :=
  if (start <? 0) || (end_ <=? start) || (num =? 0) then
    Ret (Some (errors_New "invalid arguments to WriteInterval"), w)
  else
    w <- grow start end_ num w ;;
    let w := WriteString " ($" w in
    let w := WriteInt start w in
    w <- WriteInterval_items fuel start end_ w ;;
    let w := WriteByte ")" w in
    w <- WriteInterval_loop fuel fuel start end_ (Int.sub num 1) w ;;
    Ret (None, w).

Definition empty_buffer : Buffer := mkBuffer 0 "".

(* ================================================================== *)
(** ** The pool and the escape hatch *)

(** A [*Buffer] is an address into [heap]; [pool] is the idle set of
    [bufferPool]; [finalizers] lists the buffers whose view carries a
    finalizer set by [runtime.SetFinalizer]. *)
Record World : Type := mkWorld {
  heap : list Buffer;
  pool : list nat;
  finalizers : list nat
}.

Definition load (b : nat) (s : World) : result Buffer :=
  match nth_error (heap s) b with
  | Some x => Ret x
  | None => Panic "invalid memory address or nil pointer dereference"
  end.

Fixpoint update (b : nat) (x : Buffer) (h : list Buffer) : list Buffer :=
  match h, b with
  | [], _ => []
  | _ :: t, O => x :: t
  | y :: t, S b' => y :: update b' x t
  end.

Definition store (b : nat) (x : Buffer) (s : World) : World :=
  mkWorld (update b x (heap s)) (pool s) (finalizers s).

(** [bufferPool.Get()]. Which idle buffer [sync.Pool] hands out, and
    whether it ignores the idle set and calls [New], is the pool's own
    choice, not the caller's: [pick] is that choice, [Some i] for the idle
    buffer at position [i] and [None] (or a position the idle set does not
    have) for a buffer made by [New]. *)
Definition GetBuffer (pick : option nat) (s : World) : nat * World :=
  let fresh :=
    (List.length (heap s),
     mkWorld (heap s ++ [mkBuffer 0 ""])%list (pool s) (finalizers s)) in
  match pick with
  | Some i =>
      match nth_error (pool s) i with
      | Some b =>
          (b, mkWorld (heap s)
                      (firstn i (pool s) ++ skipn (S i) (pool s))%list
                      (finalizers s))
      | None => fresh
      end
  | None => fresh
  end.

Definition PutBuffer (b : nat) (s : World) : result World :=
  x <- load b s ;;
  if negb (unsafe x =? 0) then
    Panic "pools: PutBuffer called after UnsafeBytes without finalizer running"
  else
    let s := store b (Reset x) s in
    Ret (mkWorld (heap s) (b :: pool s) (finalizers s)).

(** [atomic.CompareAndSwapUint32(&b.unsafe, old, new)] *)
Definition CompareAndSwap (b : nat) (old new : Z) (s : World)
  : result (bool * World) :=
  x <- load b s ;;
  if unsafe x =? old then Ret (true, store b (mkBuffer new (buf x)) s)
  else Ret (false, s).

(** The returned slice is modelled by its bytes; [nil] is the empty one. *)
Definition UnsafeBytes (b : nat) (s : World) : result (string * World) :=
  x <- load b s ;;
  if Len x =? 0 then
    s <- PutBuffer b s ;;
    Ret ("", s)
  else
    '(swapped, s) <- CompareAndSwap b 0 1 s ;;
    if negb swapped then Panic "pools: UnsafeBytes called twice"
    else
      x <- load b s ;;
      let view := Bytes x in
      let s := mkWorld (heap s) (pool s) (b :: finalizers s) in
      Ret (view, s).

(** The function passed to [runtime.SetFinalizer], run when the view is
    collected. *)
Definition run_finalizer (b : nat) (s : World) : result World :=
  '(swapped, s) <- CompareAndSwap b 1 0 s ;;
  if negb swapped then Panic "pools: Buffer.unsafe is not 1"
  else PutBuffer b s.

(* ================================================================== *)
(** ** What the specification says, in its own words *)

(** The number of base-10 digits of [i], as [Itoa] prints it. *)
Definition digits (i : Z) : Z := Z.of_nat (String.length (Itoa i)).

(** The brute-force sum of [digits i + add] for [i] in [[1, n]]. *)
Fixpoint brute_width (n : nat) (add : Z) : Z :=
  match n with
  | O => 0
  | S k => brute_width k add + (digits (Z.of_nat (S k)) + add)
  end.

(** The arithmetic clamp. *)
Definition spec_clamp (x : Z) : Z := Z.max x 0.

(** [start, start+1, ..., start+len-1] *)
Fixpoint zrange (start : Z) (len : nat) : list Z :=
  match len with
  | O => []
  | S k => start :: zrange (start + 1) k
  end.

Definition placeholder (v : Z) : string := "$" ++ Itoa v.

(** ["($v1, $v2, ..., $vn)"] *)
Definition spec_list (vs : list Z) : string :=
  "(" ++ String.concat ", " (map placeholder vs) ++ ")".

(** Group number [g] of [WriteGroups], with its leading space. *)
Definition spec_group (prefix : list Z) (offset groupLen : Z) (g : nat)
  : string :=
  " " ++ spec_list (prefix ++ zrange (offset + Z.of_nat g * groupLen)
                                      (Z.to_nat groupLen))%list.

(** [groups] groups separated by a bare comma. *)
Definition spec_WriteGroups (offset groupLen groups : Z) (prefix : list Z)
  : string :=
  String.concat "," (map (spec_group prefix offset groupLen)
                         (seq 0 (Z.to_nat groups))).

Fixpoint repeat_text (n : nat) (s : string) : string :=
  match n with
  | O => ""
  | S k => s ++ repeat_text k s
  end.

(** The interval once, then [num - 1] more times behind [", "]. *)
Definition spec_WriteInterval (start end_ num : Z) : string :=
  let l := spec_list (zrange start (Z.to_nat (end_ - start + 1))) in
  " " ++ l ++ repeat_text (Z.to_nat (num - 1)) (", " ++ l).

(** [w] with [s] appended to its contents. *)
Definition appended (w : Buffer) (s : string) : Buffer :=
  mkBuffer (unsafe w) (buf w ++ s).

(** [w'] is [w] with more text behind it. *)
Definition extends (w w' : Buffer) : Prop := exists s, w' = appended w s.

(** Bytes a call added to the buffer. *)
Definition written (before after : Buffer) : Z := Len after - Len before.

(** Congruence modulo [2^64]: equal after reduction to an [int]. *)
Definition eqm (a b : Z) : Prop := Int.wrap a = Int.wrap b.

(** The largest threshold of the width table. *)
Definition table_max : Z := 99999999999999999.

(** Cumulative width of all numbers of at most [d] digits. *)
Fixpoint cum (d : nat) : Z :=
  match d with
  | O => 0
  | S k => cum k + 9 * 10 ^ Z.of_nat k * Z.of_nat (S k)
  end.

(* ================================================================== *)
(** ** The text the loops append, following the code *)

(** [k] rounds of [", $"] and the next number, counting up from [v] with
    the wrap-around of [v + 1]. *)
Fixpoint tail_items (k : nat) (v : Z) : string :=
  match k with
  | O => ""
  | S k' => ", $" ++ Itoa (Int.add v 1) ++ tail_items k' (Int.add v 1)
  end.

Fixpoint prefix_text (prefix : list Z) : string :=
  match prefix with
  | [] => ""
  | v :: rest => Itoa v ++ ", $" ++ prefix_text rest
  end.

(** One call of [writeGroup]. *)
Definition group_text (prefix : list Z) (offset groupLen : Z) : string :=
  " ($" ++ prefix_text prefix ++ Itoa offset
        ++ tail_items (Z.to_nat (groupLen - 1)) offset ++ ")".

(** [g] rounds of the loop of [WriteGroups]. *)
Fixpoint more_groups (g : nat) (prefix : list Z) (offset groupLen : Z)
  : string :=
  match g with
  | O => ""
  | S g' => "," ++ group_text prefix offset groupLen
                ++ more_groups g' prefix (Int.add offset groupLen) groupLen
  end.

(** One parenthesized interval of [WriteInterval]. *)
Definition interval_text (start end_ : Z) : string :=
  "($" ++ Itoa start ++ tail_items (Z.to_nat (end_ - start)) start ++ ")".

(** Every element behind a separator. *)
Fixpoint prefixed (sep : string) (l : list string) : string :=
  match l with
  | [] => ""
  | x :: rest => sep ++ x ++ prefixed sep rest
  end.

(* ================================================================== *)
(** ** Invariants and reference texts of the further properties *)

(** Every buffer of the idle set is allocated, empty and in the Normal
    state. *)
Definition pool_ok (s : World) : Prop :=
  forall b, In b (pool s) ->
    exists x, nth_error (heap s) b = Some x /\ unsafe x = 0 /\ buf x = "".

(** The request of [grow], [(totalWidth(end-start+1, 3) + 2) * num - 2],
    is an [int] before any wrap-around. *)
Definition request_in_range (start end_ num : Z) : Prop :=
  exists v, totalWidth (Int.add (Int.sub end_ start) 1) 3 = Ret v /\
            Int.in_range ((v + 2) * num - 2).

(** The buffers of [s] are still there, unchanged, in [s']. *)
Definition heap_kept (s s' : World) : Prop :=
  forall c x, nth_error (heap s) c = Some x -> nth_error (heap s') c = Some x.

(** The group [writeGroup] writes when [groupLen <= 1]: the prefix and the
    one number [offset]. *)
Definition single_group (prefix : list Z) (offset : Z) : string :=
  " " ++ spec_list (prefix ++ [offset])%list.

(* ================================================================== *)
(** ** Wrap-around arithmetic *)

Section IntFacts.

Import Int.

Lemma wrap_small z : in_range z -> wrap z = z.
Proof.
  unfold in_range, wrap, min_int, max_int, modulus. intros H.
  rewrite Z.mod_small; lia.
Qed.

Lemma wrap_in_range z : in_range (wrap z).
Proof.
  unfold in_range, wrap, min_int, max_int, modulus.
  pose proof (Z.mod_pos_bound (z - -9223372036854775808) 18446744073709551616).
  lia.
Qed.

Lemma wrap_shift z k : wrap (z + k * modulus) = wrap z.
Proof.
  unfold wrap.
  replace (z + k * modulus - min_int) with (z - min_int + k * modulus) by ring.
  rewrite Z_mod_plus_full. reflexivity.
Qed.

Lemma wrap_decomp z : exists k, wrap z = z + k * modulus.
Proof.
  exists (- ((z - min_int) / modulus)). unfold wrap.
  rewrite Z.mod_eq by (unfold modulus; lia). ring.
Qed.

Lemma wrap_add_l a b : wrap (wrap a + b) = wrap (a + b).
Proof.
  destruct (wrap_decomp a) as [k ->].
  replace (a + k * modulus + b) with (a + b + k * modulus) by ring.
  apply wrap_shift.
Qed.

Lemma wrap_add_r a b : wrap (a + wrap b) = wrap (a + b).
Proof. rewrite Z.add_comm, wrap_add_l, Z.add_comm. reflexivity. Qed.

Lemma wrap_sub_l a b : wrap (wrap a - b) = wrap (a - b).
Proof.
  destruct (wrap_decomp a) as [k ->].
  replace (a + k * modulus - b) with (a - b + k * modulus) by ring.
  apply wrap_shift.
Qed.

Lemma wrap_sub_r a b : wrap (a - wrap b) = wrap (a - b).
Proof.
  destruct (wrap_decomp b) as [k ->].
  replace (a - (b + k * modulus)) with (a - b + (- k) * modulus) by ring.
  apply wrap_shift.
Qed.

Lemma wrap_mul_l a b : wrap (wrap a * b) = wrap (a * b).
Proof.
  destruct (wrap_decomp a) as [k ->].
  replace ((a + k * modulus) * b) with (a * b + (k * b) * modulus) by ring.
  apply wrap_shift.
Qed.

Lemma wrap_mul_r a b : wrap (a * wrap b) = wrap (a * b).
Proof. rewrite Z.mul_comm, wrap_mul_l, Z.mul_comm. reflexivity. Qed.

Lemma add_small a b : in_range (a + b) -> add a b = a + b.
Proof. apply wrap_small. Qed.

Lemma sub_small a b : in_range (a - b) -> sub a b = a - b.
Proof. apply wrap_small. Qed.

End IntFacts.

#[local] Instance eqm_equivalence : Equivalence eqm.
Proof.
  split; unfold eqm.
  - intros a. reflexivity.
  - intros a b H. symmetry. assumption.
  - intros a b c H1 H2. congruence.
Qed.

#[local] Instance eqm_add : Proper (eqm ==> eqm ==> eqm) Z.add.
Proof.
  intros a a' Ha b b' Hb. unfold eqm in *.
  rewrite <- (wrap_add_l a b), <- (wrap_add_r (Int.wrap a) b), Ha, Hb.
  rewrite wrap_add_r, wrap_add_l. reflexivity.
Qed.

#[local] Instance eqm_sub : Proper (eqm ==> eqm ==> eqm) Z.sub.
Proof.
  intros a a' Ha b b' Hb. unfold eqm in *.
  rewrite <- (wrap_sub_l a b), <- (wrap_sub_r (Int.wrap a) b), Ha, Hb.
  rewrite wrap_sub_r, wrap_sub_l. reflexivity.
Qed.

#[local] Instance eqm_mul : Proper (eqm ==> eqm ==> eqm) Z.mul.
Proof.
  intros a a' Ha b b' Hb. unfold eqm in *.
  rewrite <- (wrap_mul_l a b), <- (wrap_mul_r (Int.wrap a) b), Ha, Hb.
  rewrite wrap_mul_r, wrap_mul_l. reflexivity.
Qed.

Lemma wrap_eqm (a : Z) : eqm (Int.wrap a) a.
Proof. unfold eqm. apply wrap_small, wrap_in_range. Qed.

(** Every [Int] operation inside a wrapped expression can be read as the
    mathematical one. *)
Ltac unwrap :=
  unfold Int.add, Int.sub, Int.mul;
  match goal with
  | |- Ret (Int.wrap ?a) = Ret (Int.wrap ?b) => apply f_equal; change (eqm a b)
  | |- Int.wrap ?a = Int.wrap ?b => change (eqm a b)
  end;
  rewrite ?wrap_eqm.

(* ================================================================== *)
(** ** The clamp of [grow] *)

Lemma intSize_value : intSize = 63.
Proof. reflexivity. Qed.

Lemma clamp_nonneg_case x : 0 <= x <= Int.max_int -> clamp x = x.
Proof.
  unfold clamp, Int.and, Int.not, Int.shr, Int.max_int. intros H.
  rewrite intSize_value, Z.shiftr_div_pow2 by lia.
  rewrite Z.div_small by (change (2 ^ 63) with 9223372036854775808; lia).
  change (Z.lnot 0) with (-1). apply Z.land_m1_r.
Qed.

Lemma clamp_neg_case x : Int.min_int <= x < 0 -> clamp x = 0.
Proof.
  unfold clamp, Int.and, Int.not, Int.shr, Int.min_int. intros H.
  rewrite intSize_value, Z.shiftr_div_pow2 by lia.
  change (2 ^ 63) with 9223372036854775808.
  assert (E : x / 9223372036854775808 = -1).
  { symmetry. apply (Z.div_unique x 9223372036854775808 (-1)
                       (x + 9223372036854775808)); lia. }
  rewrite E. change (Z.lnot (-1)) with 0. apply Z.land_0_r.
Qed.

Lemma clamp_max x : Int.in_range x -> clamp x = Z.max x 0.
Proof.
  unfold Int.in_range. intros H.
  destruct (Z.lt_ge_cases x 0).
  - rewrite clamp_neg_case by lia. lia.
  - rewrite clamp_nonneg_case by lia. lia.
Qed.

Lemma clamp_nonneg x : Int.in_range x -> 0 <= clamp x.
Proof. intros H. rewrite clamp_max by assumption. lia. Qed.

(* ================================================================== *)
(** ** Strings and appended text *)

Lemma append_assoc (a b c : string) : (a ++ b) ++ c = a ++ (b ++ c).
Proof. induction a as [|x a IH]; simpl; [reflexivity | now rewrite IH]. Qed.

Lemma append_nil_r (a : string) : a ++ "" = a.
Proof. induction a as [|x a IH]; simpl; [reflexivity | now rewrite IH]. Qed.

Lemma length_append (a b : string) :
  String.length (a ++ b) = (String.length a + String.length b)%nat.
Proof. induction a as [|x a IH]; simpl; [reflexivity | now rewrite IH]. Qed.

Lemma appended_nil w : appended w "" = w.
Proof. destruct w. unfold appended. simpl. now rewrite append_nil_r. Qed.

Lemma appended_appended w a b : appended (appended w a) b = appended w (a ++ b).
Proof. unfold appended. simpl. now rewrite append_assoc. Qed.

Lemma WriteString_appended s w : WriteString s w = appended w s.
Proof. reflexivity. Qed.

Lemma WriteByte_appended c w : WriteByte c w = appended w (String c "").
Proof. reflexivity. Qed.

Lemma WriteInt_appended i w : WriteInt i w = appended w (Itoa i).
Proof. reflexivity. Qed.

Lemma written_appended w s : written w (appended w s) = Z.of_nat (String.length s).
Proof. unfold written, Len, appended. simpl. rewrite length_append. lia. Qed.


(* ================================================================== *)
(** ** Digits and the brute-force width *)

Lemma pow10_pos (e : nat) : 0 < 10 ^ Z.of_nat e.
Proof. apply Z.pow_pos_nonneg; lia. Qed.

Lemma pow10_succ (e : nat) : 10 ^ Z.of_nat (S e) = 10 * 10 ^ Z.of_nat e.
Proof. rewrite Nat2Z.inj_succ, Z.pow_succ_r by lia. reflexivity. Qed.

Lemma format_bits_length (e : nat) :
  forall rounds u acc,
    (S e <= rounds)%nat ->
    10 ^ Z.of_nat e <= u < 10 ^ Z.of_nat (S e) ->
    String.length (format_bits rounds u acc) = (S e + String.length acc)%nat.
Proof.
  induction e as [|e IH]; intros rounds u acc Hr Hu;
    destruct rounds as [|r]; try lia; simpl format_bits.
  - change (10 ^ Z.of_nat 0) with 1 in Hu. change (10 ^ Z.of_nat 1) with 10 in Hu.
    destruct (Z.ltb_spec u 10); [reflexivity | lia].
  - rewrite (pow10_succ (S e)) in Hu. rewrite (pow10_succ e) in Hu.
    pose proof (pow10_pos e) as Hp.
    destruct (Z.ltb_spec u 10); [lia|].
    rewrite IH.
    + simpl. lia.
    + lia.
    + rewrite (pow10_succ e). split.
      * apply Z.div_le_lower_bound; lia.
      * apply Z.div_lt_upper_bound; lia.
Qed.

Lemma digits_bracket (e : nat) (i : Z) :
  (e < 20)%nat ->
  10 ^ Z.of_nat e <= i < 10 ^ Z.of_nat (S e) ->
  digits i = Z.of_nat (S e).
Proof.
  intros He Hi. pose proof (pow10_pos e) as Hp.
  unfold digits, Itoa.
  destruct (Z.ltb_spec i 0); [lia|].
  rewrite (format_bits_length e) by (assumption || lia).
  simpl String.length. f_equal. lia.
Qed.

Lemma brute_width_closed (add : Z) (n : nat) :
  forall e : nat,
    (e < 20)%nat ->
    10 ^ Z.of_nat e <= Z.of_nat n < 10 ^ Z.of_nat (S e) ->
    brute_width n add =
    (Z.of_nat n - (10 ^ Z.of_nat e - 1)) * Z.of_nat (S e) + cum e
    + Z.of_nat n * add.
Proof.
  induction n as [|n IH]; intros e He Hn.
  - pose proof (pow10_pos e). simpl in Hn. lia.
  - simpl brute_width. rewrite (digits_bracket e) by assumption.
    pose proof (pow10_pos e) as Hp.
    destruct n as [|n'].
    + (* the sum starts *)
      destruct e as [|e'].
      * change (brute_width 0 add) with 0. change (cum 0) with 0.
        change (10 ^ Z.of_nat 0) with 1. lia.
      * rewrite (pow10_succ e') in Hn. pose proof (pow10_pos e'). lia.
    + set (m := S n') in *.
      destruct (Z.le_gt_cases (10 ^ Z.of_nat e) (Z.of_nat m)) as [Hsame|Hnew].
      * (* [m] and [m + 1] have the same number of digits *)
        rewrite (IH e) by lia. lia.
      * (* [m + 1] is the first number of [e + 1] digits *)
        destruct e as [|e'].
        { change (10 ^ Z.of_nat 0) with 1 in *. lia. }
        pose proof (pow10_pos e') as Hp'.
        rewrite (pow10_succ e') in Hn, Hnew, Hp |- *.
        rewrite (IH e') by (rewrite ?(pow10_succ e'); lia).
        change (cum (S e')) with (cum e' + 9 * 10 ^ Z.of_nat e' * Z.of_nat (S e')).
        assert (Hm : Z.of_nat (S m) = 10 * 10 ^ Z.of_nat e') by lia.
        replace (Z.of_nat m) with (10 * 10 ^ Z.of_nat e' - 1) by lia.
        rewrite Hm. ring.
Qed.

(* ================================================================== *)
(** ** The width table against the closed form *)

Lemma cache_at_nat (e : nat) :
  (e < 18)%nat ->
  cache_at (Z.of_nat e) = Ret (10 ^ Z.of_nat e - 1, cum e).
Proof.
  intros He.
  do 18 (destruct e as [|e]; [reflexivity|]). lia.
Qed.

Lemma table_max_pow : table_max = 10 ^ Z.of_nat 17 - 1.
Proof. reflexivity. Qed.

Lemma below_table_max (e : nat) (n : Z) :
  10 ^ Z.of_nat e <= n -> n <= table_max -> (e < 17)%nat.
Proof.
  intros Hlo Hhi. rewrite table_max_pow in Hhi.
  destruct (Nat.lt_ge_cases e 17) as [|Hge]; [assumption|].
  assert (10 ^ Z.of_nat 17 <= 10 ^ Z.of_nat e) by (apply Z.pow_le_mono_r; lia).
  lia.
Qed.

Lemma eval_closed (n p i s add : Z) :
  Int.add (Int.add (Int.mul (Int.sub n p) i) s) (Int.mul n add)
  = Int.wrap ((n - p) * i + s + n * add).
Proof.
  unwrap. reflexivity.
Qed.

Lemma index_succ (i : nat) : (i < 100)%nat -> Int.add (Z.of_nat i) 1 = Z.of_nat (S i).
Proof.
  intros Hi. rewrite add_small; [lia|].
  unfold Int.in_range, Int.min_int, Int.max_int. lia.
Qed.

Lemma index_pred (i : nat) : (i < 100)%nat -> Int.sub (Z.of_nat (S i)) 1 = Z.of_nat i.
Proof.
  intros Hi. rewrite sub_small; [lia|].
  unfold Int.in_range, Int.min_int, Int.max_int. lia.
Qed.

Lemma totalWidth_scan_step (fuel : nat) (n add i : Z) :
  totalWidth_scan (S fuel) n add i =
  ('(pow, _) <- cache_at i ;;
   if n <=? pow then
     '(ppow, psum) <- cache_at (Int.sub i 1) ;;
     Ret (Int.add (Int.add (Int.mul (Int.sub n ppow) i) psum) (Int.mul n add))
   else totalWidth_scan fuel n add (Int.add i 1)).
Proof. reflexivity. Qed.

(** The scan started at index [e + 1], knowing [n] has more than [e]
    digits, stops at the number of digits of [n]. *)
Lemma totalWidth_scan_spec (n add : Z) (fuel : nat) :
  forall e : nat,
    (17 <= fuel + e)%nat ->
    10 ^ Z.of_nat e <= n -> n <= table_max ->
    exists d : nat,
      (d < 17)%nat /\ 10 ^ Z.of_nat d <= n < 10 ^ Z.of_nat (S d) /\
      totalWidth_scan fuel n add (Z.of_nat (S e)) =
      Ret (Int.wrap ((n - (10 ^ Z.of_nat d - 1)) * Z.of_nat (S d) + cum d
                     + n * add)).
Proof.
  induction fuel as [|fuel IH]; intros e Hf Hlo Hhi;
    pose proof (below_table_max e n Hlo Hhi) as He; [lia|].
  rewrite totalWidth_scan_step.
  rewrite (cache_at_nat (S e)) by lia. cbn [bind].
  destruct (Z.leb_spec n (10 ^ Z.of_nat (S e) - 1)) as [Hin|Hout].
  - exists e. split; [assumption|]. split; [lia|].
    rewrite index_pred by lia. rewrite (cache_at_nat e) by lia. cbn [bind].
    rewrite eval_closed. reflexivity.
  - rewrite index_succ by lia. apply IH; lia.
Qed.

Lemma totalWidth_wrapped (n add : Z) :
  1 <= n <= table_max ->
  totalWidth n add = Ret (Int.wrap (brute_width (Z.to_nat n) add)).
Proof.
  intros Hn. unfold totalWidth.
  destruct (Z.leb_spec n 0); [lia|].
  destruct (Z.ltb_spec n 10).
  { rewrite (brute_width_closed add (Z.to_nat n) 0)
      by (try lia; change (10 ^ Z.of_nat 0) with 1;
          change (10 ^ Z.of_nat 1) with 10; lia).
    rewrite Z2Nat.id by lia. unwrap.
    change (10 ^ Z.of_nat 0) with 1. change (cum 0) with 0.
    replace ((n - (1 - 1)) * Z.of_nat 1 + 0 + n * add) with (n + n * add) by ring.
    reflexivity. }
  destruct (Z.ltb_spec n 100).
  { rewrite (brute_width_closed add (Z.to_nat n) 1)
      by (try lia; change (10 ^ Z.of_nat 1) with 10;
          change (10 ^ Z.of_nat 2) with 100; lia).
    rewrite Z2Nat.id by lia. unwrap.
    change (10 ^ Z.of_nat 1) with 10. change (cum 1) with 9.
    replace ((n - (10 - 1)) * Z.of_nat 2 + 9 + n * add)
      with (n * 2 - 9 + n * add) by (change (Z.of_nat 2) with 2; ring).
    reflexivity. }
  change (cache_at (Int.sub (Z.of_nat (List.length cache)) 1))
    with (Ret (A := Z * Z) (table_max, 1688888888888888889)).
  cbn [bind].
  destruct (Z.ltb_spec table_max n); [lia|].
  change (List.length cache) with 18%nat.
  change (totalWidth_scan 18 n add 3)
    with (totalWidth_scan 18 n add (Z.of_nat 3)).
  destruct (totalWidth_scan_spec n add 18 2) as (d & Hd & Hbr & ->);
    [lia | change (10 ^ Z.of_nat 2) with 100; lia | lia |].
  rewrite (brute_width_closed add (Z.to_nat n) d) by (rewrite ?Z2Nat.id; lia).
  rewrite Z2Nat.id by lia. reflexivity.
Qed.

Lemma totalWidth_exact (n add : Z) :
  1 <= n <= table_max ->
  Int.in_range (brute_width (Z.to_nat n) add) ->
  totalWidth n add = Ret (brute_width (Z.to_nat n) add).
Proof.
  intros Hn Hfit. rewrite totalWidth_wrapped by assumption.
  rewrite wrap_small by assumption. reflexivity.
Qed.

Lemma totalWidth_nonpositive (n add : Z) : n <= 0 -> totalWidth n add = Ret add.
Proof. intros Hn. unfold totalWidth. destruct (Z.leb_spec n 0); [reflexivity | lia]. Qed.

Lemma totalWidth_beyond (n add : Z) : table_max < n -> totalWidth n add = Ret 0.
Proof.
  unfold table_max. intros Hn. unfold totalWidth.
  destruct (Z.leb_spec n 0); [lia|].
  destruct (Z.ltb_spec n 10); [lia|].
  destruct (Z.ltb_spec n 100); [lia|].
  change (cache_at (Int.sub (Z.of_nat (List.length cache)) 1))
    with (Ret (A := Z * Z) (99999999999999999, 1688888888888888889)).
  cbn [bind].
  destruct (Z.ltb_spec 99999999999999999 n); [reflexivity | lia].
Qed.

Lemma totalWidth_returns (n add : Z) : exists v, totalWidth n add = Ret v.
Proof.
  destruct (Z.le_gt_cases n 0).
  - eexists. apply totalWidth_nonpositive. assumption.
  - destruct (Z.le_gt_cases n table_max).
    + eexists. apply totalWidth_wrapped. lia.
    + eexists. apply totalWidth_beyond. assumption.
Qed.

(* ================================================================== *)
(** ** [grow] always returns *)

Lemma grow_request_returns (start end_ num : Z) :
  exists n, grow_request start end_ num = Ret n /\ 0 <= n.
Proof.
  unfold grow_request.
  destruct (totalWidth_returns (Int.add (Int.sub end_ start) 1) 3) as [v ->].
  cbn [bind]. eexists. split; [reflexivity|].
  apply clamp_nonneg, wrap_in_range.
Qed.

Lemma grow_returns (start end_ num : Z) (w : Buffer) :
  grow start end_ num w = Ret w.
Proof.
  unfold grow.
  destruct (grow_request_returns start end_ num) as (n & -> & Hn).
  cbn [bind]. unfold Grow.
  destruct (Z.ltb_spec n 0); [lia | reflexivity].
Qed.

(* ================================================================== *)
(** ** The loops, run *)

Lemma counter_succ (i hi : Z) :
  Int.min_int <= i -> i < hi -> hi <= Int.max_int -> Int.add i 1 = i + 1.
Proof. intros. apply add_small. unfold Int.in_range. lia. Qed.

Lemma writeGroup_loop_run (groupLen : Z) (k : nat) :
  forall fuel i offset w,
    groupLen <= Int.max_int -> Int.min_int <= i ->
    k = Z.to_nat (groupLen - i) -> (k < fuel)%nat ->
    writeGroup_loop fuel i offset groupLen w
    = Ret (appended w (tail_items k offset)).
Proof.
  induction k as [|k IH]; intros fuel i offset w Hg Hi Hk Hf;
    destruct fuel as [|fuel]; try lia; cbn [writeGroup_loop tail_items].
  - destruct (Z.ltb_spec i groupLen); [lia|]. now rewrite appended_nil.
  - destruct (Z.ltb_spec i groupLen); [|lia].
    rewrite (counter_succ i groupLen) by lia.
    rewrite IH by lia.
    rewrite WriteString_appended, WriteInt_appended, !appended_appended.
    reflexivity.
Qed.

Lemma write_prefix_run (prefix : list Z) :
  forall w, write_prefix prefix w = appended w (prefix_text prefix).
Proof.
  unfold write_prefix.
  induction prefix as [|v rest IH]; intros w; cbn [fold_left prefix_text].
  - now rewrite appended_nil.
  - rewrite IH, WriteString_appended, WriteInt_appended, !appended_appended.
    reflexivity.
Qed.

Lemma writeGroup_run (fuel : nat) (prefix : list Z) (offset groupLen : Z)
    (w : Buffer) :
  groupLen <= Int.max_int ->
  (Z.to_nat (groupLen - 1) < fuel)%nat ->
  writeGroup fuel prefix offset groupLen w
  = Ret (groupLen, appended w (group_text prefix offset groupLen)).
Proof.
  intros Hg Hf. unfold writeGroup, group_text.
  rewrite (writeGroup_loop_run groupLen (Z.to_nat (groupLen - 1)))
    by (unfold Int.min_int; lia || reflexivity).
  cbn [bind].
  rewrite write_prefix_run, WriteByte_appended, WriteInt_appended,
    WriteString_appended, !appended_appended.
  rewrite ?append_assoc. reflexivity.
Qed.

Lemma WriteGroups_loop_run (inner : nat) (prefix : list Z) (groupLen : Z)
    (g : nat) :
  forall fuel offset groups w,
    groupLen <= Int.max_int -> (Z.to_nat (groupLen - 1) < inner)%nat ->
    groups <= Int.max_int ->
    g = Z.to_nat groups -> (g < fuel)%nat ->
    WriteGroups_loop fuel inner prefix offset groupLen groups w
    = Ret (appended w (more_groups g prefix offset groupLen)).
Proof.
  induction g as [|g IH]; intros fuel offset groups w Hl Hi Hg Hk Hf;
    destruct fuel as [|fuel]; try lia; cbn [WriteGroups_loop more_groups].
  - destruct (Z.ltb_spec 0 groups); [lia|]. now rewrite appended_nil.
  - destruct (Z.ltb_spec 0 groups); [|lia].
    rewrite writeGroup_run by assumption. cbn [bind].
    assert (Hsub : Int.sub groups 1 = groups - 1).
    { apply sub_small. unfold Int.in_range, Int.min_int. lia. }
    rewrite Hsub, IH by lia.
    rewrite WriteByte_appended, !appended_appended. reflexivity.
Qed.

Lemma WriteGroups_run (fuel : nat) (offset groupLen groups : Z)
    (prefix : list Z) (w : Buffer) :
  0 <= offset -> groups <> 0 ->
  groupLen <= Int.max_int ->
  (Z.to_nat (groupLen - 1) < fuel)%nat ->
  (Z.to_nat (Int.sub groups 1) < fuel)%nat ->
  WriteGroups fuel offset groupLen groups prefix w
  = Ret (None,
         appended w (group_text prefix offset groupLen
                     ++ more_groups (Z.to_nat (Int.sub groups 1)) prefix
                          (Int.add offset groupLen) groupLen)).
Proof.
  intros Ho Hg Hl Hi Hf. unfold WriteGroups.
  destruct (Z.ltb_spec offset 0); [lia|].
  destruct (Z.eqb_spec groups 0); [contradiction|].
  cbn [orb]. rewrite grow_returns. cbn [bind].
  rewrite writeGroup_run by assumption. cbn [bind].
  rewrite (WriteGroups_loop_run fuel prefix groupLen
             (Z.to_nat (Int.sub groups 1)));
    try assumption; try reflexivity.
  - cbn [bind]. rewrite appended_appended. reflexivity.
  - apply wrap_in_range.
Qed.

Lemma WriteInterval_items_run (end_ : Z) (k : nat) :
  forall fuel i w,
    end_ <= Int.max_int -> Int.min_int <= i ->
    k = Z.to_nat (end_ - i) -> (k < fuel)%nat ->
    WriteInterval_items fuel i end_ w = Ret (appended w (tail_items k i)).
Proof.
  induction k as [|k IH]; intros fuel i w He Hi Hk Hf;
    destruct fuel as [|fuel]; try lia; cbn [WriteInterval_items tail_items].
  - destruct (Z.ltb_spec i end_); [lia|]. now rewrite appended_nil.
  - destruct (Z.ltb_spec i end_); [|lia].
    rewrite (counter_succ i end_) by lia.
    rewrite IH by lia.
    rewrite WriteString_appended, WriteInt_appended, !appended_appended.
    reflexivity.
Qed.

Lemma WriteInterval_loop_run (inner : nat) (start end_ : Z) (g : nat) :
  forall fuel num w,
    end_ <= Int.max_int -> Int.min_int <= start ->
    (Z.to_nat (end_ - start) < inner)%nat ->
    num <= Int.max_int ->
    g = Z.to_nat num -> (g < fuel)%nat ->
    WriteInterval_loop fuel inner start end_ num w
    = Ret (appended w (repeat_text g (", " ++ interval_text start end_))).
Proof.
  induction g as [|g IH]; intros fuel num w He Hs Hi Hn Hk Hf;
    destruct fuel as [|fuel]; try lia; cbn [WriteInterval_loop repeat_text].
  - destruct (Z.ltb_spec 0 num); [lia|]. now rewrite appended_nil.
  - destruct (Z.ltb_spec 0 num); [|lia].
    rewrite (WriteInterval_items_run end_ (Z.to_nat (end_ - start)))
      by (assumption || reflexivity).
    cbn [bind].
    assert (Hsub : Int.sub num 1 = num - 1).
    { apply sub_small. unfold Int.in_range, Int.min_int. lia. }
    rewrite Hsub, IH by lia.
    rewrite WriteByte_appended, WriteInt_appended, WriteString_appended,
      !appended_appended.
    unfold interval_text. rewrite ?append_assoc. reflexivity.
Qed.

Lemma WriteInterval_run (fuel : nat) (start end_ num : Z) (w : Buffer) :
  0 <= start -> start < end_ -> num <> 0 ->
  end_ <= Int.max_int ->
  (Z.to_nat (end_ - start) < fuel)%nat ->
  (Z.to_nat (Int.sub num 1) < fuel)%nat ->
  WriteInterval fuel start end_ num w
  = Ret (None,
         appended w (" " ++ interval_text start end_
                     ++ repeat_text (Z.to_nat (Int.sub num 1))
                          (", " ++ interval_text start end_))).
Proof.
  intros Hs Hse Hn He Hi Hf. unfold WriteInterval.
  destruct (Z.ltb_spec start 0); [lia|].
  destruct (Z.leb_spec end_ start); [lia|].
  destruct (Z.eqb_spec num 0); [contradiction|].
  cbn [orb]. rewrite grow_returns. cbn [bind].
  rewrite (WriteInterval_items_run end_ (Z.to_nat (end_ - start)));
    try assumption; try reflexivity; [|unfold Int.min_int; lia].
  cbn [bind].
  rewrite (WriteInterval_loop_run fuel start end_
             (Z.to_nat (Int.sub num 1)));
    try assumption; try reflexivity.
  - cbn [bind].
    rewrite WriteByte_appended, WriteInt_appended, WriteString_appended,
      !appended_appended.
    unfold interval_text. rewrite ?append_assoc. reflexivity.
  - unfold Int.min_int; lia.
  - apply wrap_in_range.
Qed.

(* ================================================================== *)
(** ** The appended text against the specification's wording *)

Lemma concat_prefixed (sep x : string) (rest : list string) :
  String.concat sep (x :: rest) = x ++ prefixed sep rest.
Proof.
  revert x. induction rest as [|y rest IH]; intros x.
  - simpl. now rewrite append_nil_r.
  - cbn [String.concat prefixed]. cbn [String.concat] in IH.
    rewrite IH. reflexivity.
Qed.

Lemma tail_items_exact (k : nat) :
  forall v,
    Int.min_int <= v -> v + Z.of_nat k <= Int.max_int ->
    tail_items k v = prefixed ", " (map placeholder (zrange (v + 1) k)).
Proof.
  induction k as [|k IH]; intros v Hlo Hhi; cbn [tail_items zrange map prefixed].
  - reflexivity.
  - rewrite add_small by (unfold Int.in_range; lia).
    rewrite IH by lia. reflexivity.
Qed.

Lemma concat_cons_cons (sep x y : string) (rest : list string) :
  String.concat sep (x :: y :: rest) = x ++ sep ++ String.concat sep (y :: rest).
Proof. reflexivity. Qed.

Lemma concat_placeholders (prefix : list Z) (x : Z) (rest : list Z) :
  String.concat ", " (map placeholder (prefix ++ x :: rest)%list)
  = "$" ++ prefix_text prefix ++ Itoa x
        ++ prefixed ", " (map placeholder rest).
Proof.
  induction prefix as [|v prefix IH].
  - cbn [List.app map prefix_text]. rewrite concat_prefixed. reflexivity.
  - cbn [List.app map prefix_text].
    remember (map placeholder (prefix ++ x :: rest)%list) as m eqn:E.
    destruct m as [|y l].
    { destruct prefix; discriminate E. }
    rewrite concat_cons_cons, IH.
    unfold placeholder. rewrite ?append_assoc. reflexivity.
Qed.

Lemma group_text_exact (prefix : list Z) (offset groupLen : Z) :
  1 <= groupLen -> Int.min_int <= offset ->
  offset + groupLen - 1 <= Int.max_int ->
  group_text prefix offset groupLen
  = " " ++ spec_list (prefix ++ zrange offset (Z.to_nat groupLen))%list.
Proof.
  intros Hg Hlo Hhi. unfold group_text, spec_list.
  replace (Z.to_nat groupLen) with (S (Z.to_nat (groupLen - 1))) by lia.
  cbn [zrange]. rewrite concat_placeholders.
  rewrite tail_items_exact by lia.
  rewrite ?append_assoc. reflexivity.
Qed.

Lemma spec_group_shift (prefix : list Z) (offset groupLen : Z) (j : nat) :
  spec_group prefix offset groupLen (S j)
  = spec_group prefix (offset + groupLen) groupLen j.
Proof.
  unfold spec_group.
  replace (offset + Z.of_nat (S j) * groupLen)
    with (offset + groupLen + Z.of_nat j * groupLen)
    by (rewrite Nat2Z.inj_succ; ring).
  reflexivity.
Qed.

Lemma spec_group_first (prefix : list Z) (offset groupLen : Z) :
  spec_group prefix offset groupLen 0
  = " " ++ spec_list (prefix ++ zrange offset (Z.to_nat groupLen))%list.
Proof.
  unfold spec_group.
  replace (offset + Z.of_nat 0 * groupLen) with offset by (simpl; ring).
  reflexivity.
Qed.

Lemma more_groups_exact (prefix : list Z) (groupLen : Z) (g : nat) :
  forall o offset,
    1 <= groupLen ->
    (g <> 0%nat ->
     o = offset /\ Int.min_int <= offset /\
     offset + Z.of_nat g * groupLen - 1 <= Int.max_int) ->
    more_groups g prefix o groupLen
    = prefixed "," (map (spec_group prefix offset groupLen) (seq 0 g)).
Proof.
  induction g as [|g IH]; intros o offset Hl Hb;
    cbn [more_groups seq map prefixed]; [reflexivity|].
  destruct Hb as (-> & Hlo & Hhi); [discriminate|].
  rewrite group_text_exact by nia.
  rewrite spec_group_first.
  rewrite (IH _ (offset + groupLen)).
  - rewrite <- seq_shift, map_map.
    do 3 f_equal. apply map_ext. intros j. symmetry. apply spec_group_shift.
  - assumption.
  - intros Hg. split; [|nia].
    apply add_small. unfold Int.in_range.
    assert (1 <= Z.of_nat g) by lia. nia.
Qed.

Lemma WriteGroups_text_exact (prefix : list Z) (offset groupLen groups : Z) :
  0 <= offset -> 1 <= groupLen -> 1 <= groups -> groups <= Int.max_int ->
  offset + groups * groupLen - 1 <= Int.max_int ->
  group_text prefix offset groupLen
  ++ more_groups (Z.to_nat (Int.sub groups 1)) prefix
       (Int.add offset groupLen) groupLen
  = spec_WriteGroups offset groupLen groups prefix.
Proof.
  intros Ho Hl Hg Hgm Hb. unfold spec_WriteGroups.
  rewrite sub_small by (unfold Int.in_range, Int.min_int; lia).
  replace (Z.to_nat groups) with (S (Z.to_nat (groups - 1))) by lia.
  cbn [seq map]. rewrite concat_prefixed.
  rewrite group_text_exact by (unfold Int.min_int; nia).
  rewrite spec_group_first. f_equal.
  rewrite (more_groups_exact prefix groupLen _ _ (offset + groupLen)).
  - rewrite <- seq_shift, map_map.
    f_equal. apply map_ext. intros j. symmetry. apply spec_group_shift.
  - assumption.
  - intros Hne. unfold Int.min_int.
    assert (2 <= groups) by lia.
    rewrite Z2Nat.id by lia. split; [|nia].
    apply add_small. unfold Int.in_range, Int.min_int. nia.
Qed.

Lemma interval_text_exact (start end_ : Z) :
  Int.min_int <= start -> start <= end_ -> end_ <= Int.max_int ->
  interval_text start end_
  = spec_list (zrange start (Z.to_nat (end_ - start + 1))).
Proof.
  intros Hlo Hse Hhi. unfold interval_text, spec_list.
  replace (Z.to_nat (end_ - start + 1)) with (S (Z.to_nat (end_ - start))) by lia.
  cbn [zrange map]. rewrite concat_prefixed.
  rewrite tail_items_exact by lia.
  unfold placeholder. rewrite ?append_assoc. reflexivity.
Qed.

(* ================================================================== *)
(** ** The width calculator *)

Lemma format_bits_grows (rounds : nat) :
  forall u acc,
    (String.length acc <= String.length (format_bits rounds u acc))%nat.
Proof.
  induction rounds as [|r IH]; intros u acc; cbn [format_bits]; [lia|].
  destruct (u <? 10); [simpl; lia|].
  etransitivity; [|apply IH]. simpl. lia.
Qed.

Lemma format_bits_nonempty (rounds : nat) (u : Z) (acc : string) :
  (S (String.length acc) <= String.length (format_bits (S rounds) u acc))%nat.
Proof.
  cbn [format_bits]. destruct (u <? 10); [simpl; lia|].
  etransitivity; [|apply format_bits_grows]. simpl. lia.
Qed.

Lemma digits_positive (i : Z) : 0 <= i -> 1 <= digits i.
Proof.
  intros Hi. unfold digits, Itoa.
  destruct (Z.ltb_spec i 0); [lia|].
  pose proof (format_bits_nonempty 19 i "") as Hlen.
  change (String.length "") with 0%nat in Hlen. lia.
Qed.

Lemma brute_width_lower (add : Z) (n : nat) :
  0 <= add -> Z.of_nat n <= brute_width n add.
Proof.
  intros Ha. induction n as [|n IH]; [simpl; lia|].
  cbn [brute_width].
  pose proof (digits_positive (Z.of_nat (S n))). lia.
Qed.

(** C1, as the code has it. For [1 <= n <= 99999999999999999],
    [totalWidth n add] is the brute-force sum of [digits i + add] over
    [i] in [[1, n]] reduced to a 64-bit [int]; it is the sum itself whenever
    [add >= 0] and the sum does not exceed the largest [int]. For [n <= 0]
    it is [add]. *)
Theorem totalWidth_brute_force (n add : Z) :
  (1 <= n <= table_max -> 0 <= add ->
   brute_width (Z.to_nat n) add <= Int.max_int ->
   totalWidth n add = Ret (brute_width (Z.to_nat n) add)) /\
  (1 <= n <= table_max ->
   totalWidth n add = Ret (Int.wrap (brute_width (Z.to_nat n) add))) /\
  (n <= 0 -> totalWidth n add = Ret add).
Proof.
  split; [|split].
  - intros Hn Ha Hfit. apply totalWidth_exact; [assumption|].
    pose proof (brute_width_lower add (Z.to_nat n) Ha).
    unfold Int.in_range, Int.min_int. lia.
  - apply totalWidth_wrapped.
  - apply totalWidth_nonpositive.
Qed.

Lemma totalWidth_brute_force_witness :
  totalWidth 120 3 = Ret (brute_width (Z.to_nat 120) 3) /\
  totalWidth 120 3 = Ret (Int.wrap (brute_width (Z.to_nat 120) 3)) /\
  totalWidth (-4) 3 = Ret 3.
Proof.
  split; [|split].
  - apply (proj1 (totalWidth_brute_force 120 3)).
    + unfold table_max. lia.
    + lia.
    + apply Z.leb_le. vm_compute. reflexivity.
  - apply (proj1 (proj2 (totalWidth_brute_force 120 3))).
    unfold table_max. lia.
  - apply (proj2 (proj2 (totalWidth_brute_force (-4) 3))). lia.
Defined.

(** C1 as stated fails once the sum leaves the range of [int]:
    [totalWidth(2, 2^62)] is [2 + 2 * 2^62] wrapped around, a negative
    number, while the sum is [2^63 + 2]. *)
Lemma totalWidth_overflow_counterexample :
  1 <= 2 <= 99999999999999999 /\ 0 <= 4611686018427387904 <= Int.max_int /\
  brute_width 2 4611686018427387904 = 9223372036854775810 /\
  totalWidth 2 4611686018427387904 = Ret (-9223372036854775806) /\
  totalWidth 2 4611686018427387904 <> Ret (brute_width 2 4611686018427387904).
Proof.
  repeat split; try (vm_compute; congruence).
Qed.

(** C6, as the code has it. The table stops at 17-digit numbers
    ([digits table_max = 17]): for [1 <= n <= 99999999999999999] and
    [add >= 0] with a sum that fits an [int], [totalWidth] returns the
    exact width, which is positive; for every larger [n], 18- and 19-digit
    numbers included, it returns 0. *)
Theorem totalWidth_table_coverage (n add : Z) :
  digits table_max = 17 /\
  (1 <= n <= table_max -> 0 <= add ->
   brute_width (Z.to_nat n) add <= Int.max_int ->
   totalWidth n add = Ret (brute_width (Z.to_nat n) add) /\
   0 < brute_width (Z.to_nat n) add) /\
  (table_max < n -> totalWidth n add = Ret 0).
Proof.
  split; [reflexivity|]. split.
  - intros Hn Ha Hfit.
    pose proof (brute_width_lower add (Z.to_nat n) Ha) as Hlow.
    split; [|lia].
    apply totalWidth_exact; [assumption|].
    unfold Int.in_range, Int.min_int. lia.
  - apply totalWidth_beyond.
Qed.

Lemma totalWidth_table_coverage_witness :
  (totalWidth 1234 3 = Ret (brute_width (Z.to_nat 1234) 3) /\
   0 < brute_width (Z.to_nat 1234) 3) /\
  totalWidth 9223372036854775807 3 = Ret 0.
Proof.
  split.
  - apply (proj1 (proj2 (totalWidth_table_coverage 1234 3))).
    + unfold table_max. lia.
    + lia.
    + apply Z.leb_le. vm_compute. reflexivity.
  - apply (proj2 (proj2 (totalWidth_table_coverage 9223372036854775807 3))).
    unfold table_max. lia.
Defined.

(** C6 as stated fails at the first 18-digit number, which a 64-bit
    [int] holds: [totalWidth] returns 0 there. *)
Lemma totalWidth_18_digits_counterexample :
  1 <= 100000000000000000 <= Int.max_int /\
  digits 100000000000000000 = 18 /\
  totalWidth 100000000000000000 3 = Ret 0.
Proof.
  repeat split; vm_compute; congruence.
Qed.

(** C9. On every [int], the bitwise clamp of [grow] is [max x 0]. *)
Theorem clamp_is_max (x : Z) :
  Int.in_range x -> clamp x = spec_clamp x.
Proof. apply clamp_max. Qed.

Lemma clamp_is_max_witness :
  clamp Int.min_int = spec_clamp Int.min_int /\
  clamp Int.max_int = spec_clamp Int.max_int /\
  clamp (-1) = spec_clamp (-1).
Proof.
  split; [|split]; apply clamp_is_max;
    unfold Int.in_range, Int.min_int, Int.max_int; lia.
Defined.

(* ================================================================== *)
(** ** The request of [grow] *)

Lemma bracket_exists (k : nat) (i : Z) :
  1 <= i < 10 ^ Z.of_nat k ->
  exists e : nat, (e < k)%nat /\ 10 ^ Z.of_nat e <= i < 10 ^ Z.of_nat (S e).
Proof.
  induction k as [|k IH]; intros Hi.
  - change (10 ^ Z.of_nat 0) with 1 in Hi. lia.
  - destruct (Z.lt_ge_cases i (10 ^ Z.of_nat k)) as [Hlt|Hge].
    + destruct IH as (e & He & Hb); [lia|]. exists e. split; [lia | exact Hb].
    + exists k. split; [lia|]. lia.
Qed.

Lemma digits_in_table (i : Z) : 1 <= i <= table_max -> 1 <= digits i <= 17.
Proof.
  intros Hi. rewrite table_max_pow in Hi.
  destruct (bracket_exists 17 i) as (e & He & Hb); [lia|].
  rewrite (digits_bracket e i) by (lia || assumption). lia.
Qed.

Lemma brute_width_bounds (add : Z) (n : nat) :
  Z.of_nat n <= table_max ->
  Z.of_nat n * (1 + add) <= brute_width n add <= Z.of_nat n * (17 + add).
Proof.
  induction n as [|n IH]; intros Hn; [simpl; lia|].
  cbn [brute_width].
  pose proof (digits_in_table (Z.of_nat (S n))).
  assert (Z.of_nat n <= table_max) by lia.
  specialize (IH ltac:(assumption)). nia.
Qed.

Lemma totalWidth_extra3_bounds (n v : Z) :
  totalWidth n 3 = Ret v -> 0 <= v <= 20 * table_max.
Proof.
  unfold table_max. intros H.
  destruct (Z.le_gt_cases n 0) as [Hn|Hn].
  - rewrite totalWidth_nonpositive in H by assumption.
    injection H as <-. lia.
  - destruct (Z.le_gt_cases n table_max) as [Hm|Hm].
    + pose proof (brute_width_bounds 3 (Z.to_nat n)) as Hb.
      rewrite Z2Nat.id in Hb by lia. specialize (Hb Hm).
      unfold table_max in *.
      rewrite totalWidth_exact in H
        by (unfold table_max, Int.in_range, Int.min_int, Int.max_int; lia).
      injection H as <-. lia.
    + rewrite totalWidth_beyond in H by assumption.
      injection H as <-. lia.
Qed.




(* ================================================================== *)
(** ** The placeholder writers *)

(** C2, as the code has it. For [offset >= 0], [groupLen >= 1] and
    [groups >= 1] whose last placeholder number
    [offset + groups * groupLen - 1] does not exceed the largest [int],
    [WriteGroups] returns no error and appends exactly [groups] groups
    [" ($p1, ..., $pk, $(offset+g*groupLen), ..., $(offset+g*groupLen+groupLen-1))"],
    [g] counting from 0, separated by a bare comma. *)
Theorem WriteGroups_writes_groups (fuel : nat) (offset groupLen groups : Z)
    (prefix : list Z) (w : Buffer) :
  0 <= offset -> 1 <= groupLen -> 1 <= groups ->
  groupLen <= Int.max_int -> groups <= Int.max_int ->
  offset + groups * groupLen - 1 <= Int.max_int ->
  (Z.to_nat groupLen <= fuel)%nat -> (Z.to_nat groups <= fuel)%nat ->
  WriteGroups fuel offset groupLen groups prefix w
  = Ret (None, appended w (spec_WriteGroups offset groupLen groups prefix)).
Proof.
  intros Ho Hl Hg Hlm Hgm Hb Hfl Hfg.
  assert (Hsub : Int.sub groups 1 = groups - 1).
  { apply sub_small. unfold Int.in_range, Int.min_int. lia. }
  rewrite WriteGroups_run; try assumption; try (rewrite ?Hsub; lia).
  rewrite WriteGroups_text_exact by assumption. reflexivity.
Qed.

Lemma WriteGroups_writes_groups_witness :
  WriteGroups 10 0 4 2 [] empty_buffer
  = Ret (None, appended empty_buffer (spec_WriteGroups 0 4 2 [])) /\
  spec_WriteGroups 0 4 2 [] = " ($0, $1, $2, $3), ($4, $5, $6, $7)" /\
  WriteGroups 10 2 1 2 [1] empty_buffer
  = Ret (None, appended empty_buffer (spec_WriteGroups 2 1 2 [1])) /\
  spec_WriteGroups 2 1 2 [1] = " ($1, $2), ($1, $3)".
Proof.
  split; [|split; [|split]].
  - apply WriteGroups_writes_groups; unfold Int.max_int; simpl; lia.
  - reflexivity.
  - apply WriteGroups_writes_groups; unfold Int.max_int; simpl; lia.
  - reflexivity.
Defined.

(** C2 as stated fails when the placeholder numbers leave the range of
    [int]: the second number of [WriteGroups(MaxInt64, 2, 1)] wraps around
    to the smallest [int]. *)
Lemma WriteGroups_overflow_counterexample :
  WriteGroups 10 9223372036854775807 2 1 [] empty_buffer
  = Ret (None, mkBuffer 0 " ($9223372036854775807, $-9223372036854775808)") /\
  spec_WriteGroups 9223372036854775807 2 1 []
  = " ($9223372036854775807, $9223372036854775808)" /\
  WriteGroups 10 9223372036854775807 2 1 [] empty_buffer
  <> Ret (None, appended empty_buffer
                  (spec_WriteGroups 9223372036854775807 2 1 [])).
Proof.
  split; [|split]; vm_compute; congruence.
Qed.

(** C3. For [start >= 0], [end > start] and [num >= 1], [WriteInterval]
    returns no error and appends [" ($start, $(start+1), ..., $end)"]
    followed by [num - 1] repetitions of the same parenthesized list, each
    behind [", "]. *)
Theorem WriteInterval_writes_interval (fuel : nat) (start end_ num : Z)
    (w : Buffer) :
  0 <= start -> start < end_ -> 1 <= num ->
  end_ <= Int.max_int -> num <= Int.max_int ->
  (Z.to_nat (end_ - start) < fuel)%nat -> (Z.to_nat num <= fuel)%nat ->
  WriteInterval fuel start end_ num w
  = Ret (None, appended w (spec_WriteInterval start end_ num)).
Proof.
  intros Hs Hse Hn Hem Hnm Hfe Hfn.
  assert (Hsub : Int.sub num 1 = num - 1).
  { apply sub_small. unfold Int.in_range, Int.min_int. lia. }
  rewrite WriteInterval_run; try assumption; try (rewrite ?Hsub; lia).
  rewrite Hsub, interval_text_exact by (unfold Int.min_int; lia).
  reflexivity.
Qed.

Lemma WriteInterval_writes_interval_witness :
  WriteInterval 10 0 4 2 empty_buffer
  = Ret (None, appended empty_buffer (spec_WriteInterval 0 4 2)) /\
  spec_WriteInterval 0 4 2 = " ($0, $1, $2, $3, $4), ($0, $1, $2, $3, $4)".
Proof.
  split; [|reflexivity].
  apply WriteInterval_writes_interval; unfold Int.max_int; simpl; lia.
Defined.

(** C4 fails on the code. [WriteInterval(0, 4, 2)] asks [Grow] for 42
    bytes and writes 43 (the leading space is not counted);
    [WriteInterval(1000000000, 1000000100, 1)] asks for 498 and writes 1314
    (the widths are those of 1..n, not of start..end); and
    [WriteGroups(1000000, 1, 1)] asks for 8 and writes 11. *)
Theorem preallocation_falls_short :
  grow_request 0 4 2 = Ret 42 /\
  (exists w, WriteInterval 10 0 4 2 empty_buffer = Ret (None, w) /\
             written empty_buffer w = 43) /\
  grow_request 1000000000 1000000100 1 = Ret 498 /\
  (exists w, WriteInterval 200 1000000000 1000000100 1 empty_buffer
             = Ret (None, w) /\
             written empty_buffer w = 1314) /\
  grow_request 0 1 1 = Ret 8 /\
  (exists w, WriteGroups 10 1000000 1 1 [] empty_buffer = Ret (None, w) /\
             written empty_buffer w = 11).
Proof.
  repeat split; try (eexists; split); vm_compute; reflexivity.
Qed.

Lemma WriteGroups_invalid (fuel : nat) (offset groupLen groups : Z)
    (prefix : list Z) (w : Buffer) :
  offset < 0 \/ groups = 0 ->
  WriteGroups fuel offset groupLen groups prefix w
  = Ret (Some (errors_New "invalid arguments to WriteGroups"), w).
Proof.
  intros H. unfold WriteGroups.
  destruct (Z.ltb_spec offset 0); [reflexivity|].
  destruct (Z.eqb_spec groups 0); [reflexivity | lia].
Qed.

Lemma WriteGroups_valid (fuel : nat) (offset groupLen groups : Z)
    (prefix : list Z) (w : Buffer) (e : error) (w' : Buffer) :
  WriteGroups fuel offset groupLen groups prefix w = Ret (Some e, w') ->
  offset < 0 \/ groups = 0.
Proof.
  unfold WriteGroups.
  destruct (Z.ltb_spec offset 0); [lia|].
  destruct (Z.eqb_spec groups 0); [lia|].
  cbn [orb]. rewrite grow_returns. cbn [bind].
  destruct (writeGroup fuel prefix offset groupLen w) as [[len w1]| |];
    cbn [bind]; try discriminate.
  destruct (WriteGroups_loop fuel fuel prefix (Int.add offset len) groupLen
              (Int.sub groups 1) w1); cbn [bind]; discriminate.
Qed.

Lemma WriteInterval_invalid (fuel : nat) (start end_ num : Z) (w : Buffer) :
  start < 0 \/ end_ <= start \/ num = 0 ->
  WriteInterval fuel start end_ num w
  = Ret (Some (errors_New "invalid arguments to WriteInterval"), w).
Proof.
  intros H. unfold WriteInterval.
  destruct (Z.ltb_spec start 0); [reflexivity|].
  destruct (Z.leb_spec end_ start); [reflexivity|].
  destruct (Z.eqb_spec num 0); [reflexivity | lia].
Qed.

Lemma WriteInterval_valid (fuel : nat) (start end_ num : Z) (w : Buffer)
    (e : error) (w' : Buffer) :
  WriteInterval fuel start end_ num w = Ret (Some e, w') ->
  start < 0 \/ end_ <= start \/ num = 0.
Proof.
  unfold WriteInterval.
  destruct (Z.ltb_spec start 0); [lia|].
  destruct (Z.leb_spec end_ start); [lia|].
  destruct (Z.eqb_spec num 0); [lia|].
  cbn [orb]. rewrite grow_returns. cbn [bind].
  destruct (WriteInterval_items fuel start end_ _) as [w1| |];
    cbn [bind]; try discriminate.
  destruct (WriteInterval_loop fuel fuel start end_ (Int.sub num 1) _);
    cbn [bind]; discriminate.
Qed.

(** C5. [WriteGroups] returns its invalid-argument error with the buffer
    untouched when [offset < 0] or [groups == 0], and returns an error in
    no other case; [WriteInterval] does so when [start < 0],
    [start >= end] or [num == 0], and in no other case. Past the guard,
    with a request of [grow] that does not wrap around and fuel for the
    loops, both return no error. *)
Theorem invalid_arguments (fuel : nat) (offset groupLen groups : Z)
    (prefix : list Z) (start end_ num : Z) (w : Buffer) :
  (offset < 0 \/ groups = 0 ->
   WriteGroups fuel offset groupLen groups prefix w
   = Ret (Some (errors_New "invalid arguments to WriteGroups"), w)) /\
  ((exists e w', WriteGroups fuel offset groupLen groups prefix w
                 = Ret (Some e, w')) ->
   offset < 0 \/ groups = 0) /\
  (~ (offset < 0 \/ groups = 0) -> groupLen <= Int.max_int ->
   request_in_range 0 groupLen groups ->
   (Z.to_nat (groupLen - 1) < fuel)%nat ->
   (Z.to_nat (Int.sub groups 1) < fuel)%nat ->
   exists w', WriteGroups fuel offset groupLen groups prefix w
              = Ret (None, w')) /\
  (start < 0 \/ end_ <= start \/ num = 0 ->
   WriteInterval fuel start end_ num w
   = Ret (Some (errors_New "invalid arguments to WriteInterval"), w)) /\
  ((exists e w', WriteInterval fuel start end_ num w = Ret (Some e, w')) ->
   start < 0 \/ end_ <= start \/ num = 0) /\
  (~ (start < 0 \/ end_ <= start \/ num = 0) -> end_ <= Int.max_int ->
   request_in_range start end_ num ->
   (Z.to_nat (end_ - start) < fuel)%nat ->
   (Z.to_nat (Int.sub num 1) < fuel)%nat ->
   exists w', WriteInterval fuel start end_ num w = Ret (None, w')).
Proof.
  split; [|split; [|split; [|split; [|split]]]].
  - apply WriteGroups_invalid.
  - intros (e & w' & H). eapply WriteGroups_valid, H.
  - intros Hv Hl _ Hf1 Hf2. eexists.
    apply WriteGroups_run; (assumption || lia).
  - apply WriteInterval_invalid.
  - intros (e & w' & H). eapply WriteInterval_valid, H.
  - intros Hv He _ Hf1 Hf2. eexists.
    apply WriteInterval_run; (assumption || lia).
Qed.

Lemma invalid_arguments_witness :
  WriteGroups 10 (-1) 4 2 [] empty_buffer
  = Ret (Some (errors_New "invalid arguments to WriteGroups"), empty_buffer) /\
  (exists w', WriteGroups 10 1 4 2 [] empty_buffer = Ret (None, w')) /\
  WriteInterval 10 3 3 1 empty_buffer
  = Ret (Some (errors_New "invalid arguments to WriteInterval"), empty_buffer) /\
  (exists w', WriteInterval 10 3 5 1 empty_buffer = Ret (None, w')).
Proof.
  split; [|split; [|split]].
  - apply (proj1 (invalid_arguments 10 (-1) 4 2 [] 3 3 1 empty_buffer)). lia.
  - apply (proj1 (proj2 (proj2
             (invalid_arguments 10 1 4 2 [] 3 5 1 empty_buffer))));
      try (unfold Int.max_int; simpl; lia).
    exists 20. split; [reflexivity|].
    unfold Int.in_range, Int.min_int, Int.max_int. lia.
  - apply (proj1 (proj2 (proj2 (proj2
             (invalid_arguments 10 (-1) 4 2 [] 3 3 1 empty_buffer))))). lia.
  - apply (proj2 (proj2 (proj2 (proj2 (proj2
             (invalid_arguments 10 1 4 2 [] 3 5 1 empty_buffer))))));
      try (unfold Int.max_int; simpl; lia).
    exists 12. split; [reflexivity|].
    unfold Int.in_range, Int.min_int, Int.max_int. lia.
Defined.

(** C7 fails on the code. With [groupLen == 0] every group still carries
    [$offset] behind the prefix: [WriteGroups(0, 0, 1)] writes [" ($0)"]
    and [WriteGroups(7, 0, 2, 1, 2)] writes
    [" ($1, $2, $7), ($1, $2, $7)"]. *)
Theorem zero_length_group_writes_offset :
  WriteGroups 10 0 0 1 [] empty_buffer = Ret (None, mkBuffer 0 " ($0)") /\
  WriteGroups 10 7 0 2 [1; 2] empty_buffer
  = Ret (None, mkBuffer 0 " ($1, $2, $7), ($1, $2, $7)").
Proof. split; reflexivity. Qed.

(* ================================================================== *)
(** ** Negative repetition counts *)

Lemma extends_refl (w : Buffer) : extends w w.
Proof. exists "". now rewrite appended_nil. Qed.

Lemma extends_appended (w w' : Buffer) (s : string) :
  extends (appended w s) w' -> extends w w'.
Proof. intros [t ->]. exists (s ++ t). apply appended_appended. Qed.

Lemma writeGroup_loop_extends (fuel : nat) :
  forall i offset groupLen w w',
    writeGroup_loop fuel i offset groupLen w = Ret w' -> extends w w'.
Proof.
  induction fuel as [|fuel IH]; intros i offset groupLen w w' H;
    cbn [writeGroup_loop] in H; [discriminate|].
  destruct (i <? groupLen).
  - apply IH in H.
    rewrite WriteInt_appended, WriteString_appended in H.
    now do 2 apply extends_appended in H.
  - injection H as <-. apply extends_refl.
Qed.

Lemma writeGroup_extends (fuel : nat) (prefix : list Z) (offset groupLen : Z)
    (w : Buffer) (n : Z) (w' : Buffer) :
  writeGroup fuel prefix offset groupLen w = Ret (n, w') -> extends w w'.
Proof.
  unfold writeGroup. intros H.
  destruct (writeGroup_loop fuel 1 offset groupLen _) as [w1| |] eqn:E;
    cbn [bind] in H; try discriminate.
  injection H as _ <-.
  apply writeGroup_loop_extends in E.
  rewrite WriteInt_appended, write_prefix_run, WriteString_appended in E.
  do 3 apply extends_appended in E.
  destruct E as [s ->]. exists (s ++ ")").
  rewrite WriteByte_appended. apply appended_appended.
Qed.

Lemma WriteGroups_loop_extends (inner : nat) (prefix : list Z) (groupLen : Z)
    (fuel : nat) :
  forall offset groups w w',
    WriteGroups_loop fuel inner prefix offset groupLen groups w = Ret w' ->
    extends w w'.
Proof.
  induction fuel as [|fuel IH]; intros offset groups w w' H;
    cbn [WriteGroups_loop] in H; [discriminate|].
  destruct (0 <? groups).
  - destruct (writeGroup inner prefix offset groupLen _) as [[n w1]| |] eqn:E;
      cbn [bind] in H; try discriminate.
    apply IH in H. apply writeGroup_extends in E.
    rewrite WriteByte_appended in E. apply extends_appended in E.
    destruct E as [s ->]. now apply extends_appended in H.
  - injection H as <-. apply extends_refl.
Qed.

Lemma WriteInterval_items_extends (fuel : nat) :
  forall i end_ w w',
    WriteInterval_items fuel i end_ w = Ret w' -> extends w w'.
Proof.
  induction fuel as [|fuel IH]; intros i end_ w w' H;
    cbn [WriteInterval_items] in H; [discriminate|].
  destruct (i <? end_).
  - apply IH in H.
    rewrite WriteInt_appended, WriteString_appended in H.
    now do 2 apply extends_appended in H.
  - injection H as <-. apply extends_refl.
Qed.

Lemma WriteInterval_loop_extends (inner : nat) (start end_ : Z) (fuel : nat) :
  forall num w w',
    WriteInterval_loop fuel inner start end_ num w = Ret w' -> extends w w'.
Proof.
  induction fuel as [|fuel IH]; intros num w w' H;
    cbn [WriteInterval_loop] in H; [discriminate|].
  destruct (0 <? num).
  - destruct (WriteInterval_items inner start end_ _) as [w1| |] eqn:E;
      cbn [bind] in H; try discriminate.
    apply IH in H. apply WriteInterval_items_extends in E.
    rewrite WriteInt_appended, WriteString_appended in E.
    do 2 apply extends_appended in E.
    destruct E as [s ->].
    rewrite WriteByte_appended in H. now do 2 apply extends_appended in H.
  - injection H as <-. apply extends_refl.
Qed.










(** The request of a negative count can wrap around to a huge positive
    number: for [WriteGroups(0, 1, -922337203685477581)] the request is
    [10 * -922337203685477581 - 2] wrapped around, almost the largest
    [int], a count no allocator grants. *)
Lemma negative_count_request_wraps :
  Int.min_int < -922337203685477581 < 0 /\
  totalWidth 2 3 = Ret 8 /\
  ~ Int.in_range ((8 + 2) * -922337203685477581 - 2) /\
  grow_request 0 1 (-922337203685477581) = Ret 9223372036854775804.
Proof.
  split; [unfold Int.min_int; lia|]. split; [reflexivity|].
  split; [unfold Int.in_range, Int.min_int, Int.max_int; lia | reflexivity].
Qed.


(* ================================================================== *)
(** ** The escape hatch *)

Lemma load_update (b : nat) (x y : Buffer) (h : list Buffer) :
  nth_error h b = Some x -> nth_error (update b y h) b = Some y.
Proof.
  revert b. induction h as [|z h IH]; intros [|b] H; simpl in *;
    try discriminate; [reflexivity | auto].
Qed.

Lemma PutBuffer_escaped (b : nat) (s : World) (x : Buffer) :
  nth_error (heap s) b = Some x -> unsafe x <> 0 ->
  PutBuffer b s
  = Panic "pools: PutBuffer called after UnsafeBytes without finalizer running".
Proof.
  intros Hx Hu. unfold PutBuffer, load. rewrite Hx. cbn [bind].
  destruct (Z.eqb_spec (unsafe x) 0); [contradiction | reflexivity].
Qed.

Lemma PutBuffer_normal (b : nat) (s : World) (x : Buffer) :
  nth_error (heap s) b = Some x -> unsafe x = 0 ->
  PutBuffer b s
  = Ret (mkWorld (update b (Reset x) (heap s)) (b :: pool s) (finalizers s)).
Proof.
  intros Hx Hu. unfold PutBuffer, load. rewrite Hx. cbn [bind].
  rewrite Hu. reflexivity.
Qed.

Lemma UnsafeBytes_first (b : nat) (s : World) (x : Buffer) :
  nth_error (heap s) b = Some x -> unsafe x = 0 -> Len x <> 0 ->
  UnsafeBytes b s
  = Ret (buf x, mkWorld (update b (mkBuffer 1 (buf x)) (heap s)) (pool s)
                        (b :: finalizers s)).
Proof.
  intros Hx Hu Hl. unfold UnsafeBytes, CompareAndSwap, load.
  rewrite Hx. cbn [bind].
  destruct (Z.eqb_spec (Len x) 0); [contradiction|].
  rewrite Hu. cbn [Z.eqb bind negb store heap].
  rewrite (load_update b x _ _ Hx). reflexivity.
Qed.

Lemma UnsafeBytes_escaped (b : nat) (s : World) (x : Buffer) :
  nth_error (heap s) b = Some x -> unsafe x <> 0 -> Len x <> 0 ->
  UnsafeBytes b s = Panic "pools: UnsafeBytes called twice".
Proof.
  intros Hx Hu Hl. unfold UnsafeBytes, CompareAndSwap, load.
  rewrite Hx. cbn [bind].
  destruct (Z.eqb_spec (Len x) 0); [contradiction|].
  destruct (Z.eqb_spec (unsafe x) 0); [contradiction | reflexivity].
Qed.

Lemma UnsafeBytes_drained (b : nat) (s : World) (x : Buffer) :
  nth_error (heap s) b = Some x -> unsafe x <> 0 -> Len x = 0 ->
  UnsafeBytes b s
  = Panic "pools: PutBuffer called after UnsafeBytes without finalizer running".
Proof.
  intros Hx Hu Hl. unfold UnsafeBytes, load. rewrite Hx. cbn [bind].
  rewrite Hl. cbn [Z.eqb].
  rewrite (PutBuffer_escaped b s x Hx Hu). reflexivity.
Qed.

(** C8. On a buffer in the Normal state ([unsafe] is 0) [PutBuffer]
    returns and so does a first [UnsafeBytes]; when the buffer is not
    empty, that first call sets the flag, and in the state it leaves a
    second [UnsafeBytes] panics and so does [PutBuffer]. On any buffer whose
    flag is set, [PutBuffer] panics and so does [UnsafeBytes]. *)
Theorem escape_hatch_faults (b : nat) (s : World) (x : Buffer) :
  nth_error (heap s) b = Some x ->
  (unsafe x = 0 ->
   (exists s', PutBuffer b s = Ret s') /\
   (exists view s1,
      UnsafeBytes b s = Ret (view, s1) /\
      (Len x <> 0 ->
       view = buf x /\
       nth_error (heap s1) b = Some (mkBuffer 1 (buf x)) /\
       UnsafeBytes b s1 = Panic "pools: UnsafeBytes called twice" /\
       PutBuffer b s1
       = Panic "pools: PutBuffer called after UnsafeBytes without finalizer running"))) /\
  (unsafe x <> 0 ->
   PutBuffer b s
   = Panic "pools: PutBuffer called after UnsafeBytes without finalizer running" /\
   (Len x <> 0 -> UnsafeBytes b s = Panic "pools: UnsafeBytes called twice") /\
   (exists msg, UnsafeBytes b s = Panic msg)).
Proof.
  intros Hx. split; intros Hu.
  - split.
    + eexists. apply (PutBuffer_normal b s x Hx Hu).
    + destruct (Z.eq_dec (Len x) 0) as [Hz|Hnz].
      * unfold UnsafeBytes, load. rewrite Hx. cbn [bind].
        rewrite Hz. cbn [Z.eqb].
        rewrite (PutBuffer_normal b s x Hx Hu). cbn [bind].
        do 2 eexists. split; [reflexivity | contradiction].
      * rewrite (UnsafeBytes_first b s x Hx Hu Hnz).
        do 2 eexists. split; [reflexivity|]. intros _.
        assert (Hx1 : nth_error (update b (mkBuffer 1 (buf x)) (heap s)) b
                      = Some (mkBuffer 1 (buf x)))
          by (apply (load_update b x _ _ Hx)).
        split; [reflexivity|]. split; [exact Hx1|]. split.
        -- eapply UnsafeBytes_escaped; [exact Hx1 | simpl; lia | exact Hnz].
        -- eapply PutBuffer_escaped; [exact Hx1 | simpl; lia].
  - split; [apply (PutBuffer_escaped b s x Hx Hu)|]. split.
    + apply (UnsafeBytes_escaped b s x Hx Hu).
    + destruct (Z.eq_dec (Len x) 0) as [Hz|Hnz]; eexists.
      * apply (UnsafeBytes_drained b s x Hx Hu Hz).
      * apply (UnsafeBytes_escaped b s x Hx Hu Hnz).
Qed.

Lemma escape_hatch_faults_witness :
  ((exists s', PutBuffer 0 (mkWorld [mkBuffer 0 " ($1)"] [] []) = Ret s') /\
   (exists view s1,
      UnsafeBytes 0 (mkWorld [mkBuffer 0 " ($1)"] [] []) = Ret (view, s1) /\
      (Len (mkBuffer 0 " ($1)") <> 0 ->
       view = " ($1)" /\
       nth_error (heap s1) 0 = Some (mkBuffer 1 " ($1)") /\
       UnsafeBytes 0 s1 = Panic "pools: UnsafeBytes called twice" /\
       PutBuffer 0 s1
       = Panic "pools: PutBuffer called after UnsafeBytes without finalizer running"))) /\
  (PutBuffer 0 (mkWorld [mkBuffer 1 " ($1)"] [] [0%nat])
   = Panic "pools: PutBuffer called after UnsafeBytes without finalizer running" /\
   (Len (mkBuffer 1 " ($1)") <> 0 ->
    UnsafeBytes 0 (mkWorld [mkBuffer 1 " ($1)"] [] [0%nat])
    = Panic "pools: UnsafeBytes called twice") /\
   (exists msg, UnsafeBytes 0 (mkWorld [mkBuffer 1 " ($1)"] [] [0%nat])
                = Panic msg)).
Proof.
  split.
  - apply (proj1 (escape_hatch_faults 0 (mkWorld [mkBuffer 0 " ($1)"] [] [])
                    (mkBuffer 0 " ($1)") eq_refl)).
    reflexivity.
  - apply (proj2 (escape_hatch_faults 0
                    (mkWorld [mkBuffer 1 " ($1)"] [] [0%nat])
                    (mkBuffer 1 " ($1)") eq_refl)).
    simpl. lia.
Defined.

(* ================================================================== *)
(** ** The tests of the repository *)

Example TestBufferSequentialGroup :
  WriteGroups 10 1 1 5 [] empty_buffer
  = Ret (None, mkBuffer 0 " ($1), ($2), ($3), ($4), ($5)").
Proof. reflexivity. Qed.

Example TestBufferSequentialInterval :
  WriteInterval 10 1 5 1 empty_buffer
  = Ret (None, mkBuffer 0 " ($1, $2, $3, $4, $5)").
Proof. reflexivity. Qed.

Example TestBuffer_WriteInterval :
  WriteInterval 10 0 4 2 empty_buffer
  = Ret (None, mkBuffer 0 " ($0, $1, $2, $3, $4), ($0, $1, $2, $3, $4)").
Proof. reflexivity. Qed.

Example TestBuffer_WriteGroups :
  WriteGroups 10 0 4 2 [] empty_buffer
  = Ret (None, mkBuffer 0 " ($0, $1, $2, $3), ($4, $5, $6, $7)").
Proof. reflexivity. Qed.

Example TestBuffer_WriteGroupsPrefix :
  WriteGroups 10 2 1 2 [1] empty_buffer
  = Ret (None, mkBuffer 0 " ($1, $2), ($1, $3)").
Proof. reflexivity. Qed.

(* ================================================================== *)
(** ** Further properties: the pool *)

Lemma nth_error_update_other (b c : nat) (y : Buffer) (h : list Buffer) :
  c <> b -> nth_error (update b y h) c = nth_error h c.
Proof.
  revert b c. induction h as [|z h IH]; intros [|b] [|c] H; simpl;
    try reflexivity; try congruence.
  apply IH. congruence.
Qed.

Lemma normal_empty_buffer (x : Buffer) :
  unsafe x = 0 -> buf x = "" -> x = mkBuffer 0 "".
Proof. destruct x as [u t]. simpl. intros -> ->. reflexivity. Qed.

Lemma pool_ok_update (s : World) (b : nat) (x : Buffer) (l : list nat) :
  pool_ok s -> nth_error (heap s) b = Some x ->
  (forall c, In c l -> c = b \/ In c (pool s)) ->
  pool_ok (mkWorld (update b (mkBuffer 0 "") (heap s)) l (finalizers s)).
Proof.
  intros Hok Hx Hl c Hc. cbn [pool heap] in *.
  destruct (Nat.eq_dec c b) as [->|Hne].
  - exists (mkBuffer 0 ""). rewrite (load_update b x _ _ Hx). auto.
  - rewrite nth_error_update_other by assumption.
    destruct (Hl c Hc) as [?|Hin]; [contradiction|]. apply Hok, Hin.
Qed.

(** X1. [PutBuffer] on a buffer in the Normal state empties it, puts it
    at the head of the idle set, touches no other buffer and no finalizer,
    and keeps the idle set made of empty Normal buffers. *)
Theorem PutBuffer_resets_and_pools (b : nat) (s : World) (x : Buffer) :
  nth_error (heap s) b = Some x -> unsafe x = 0 ->
  exists s',
    PutBuffer b s = Ret s' /\
    nth_error (heap s') b = Some (mkBuffer 0 "") /\
    pool s' = b :: pool s /\
    finalizers s' = finalizers s /\
    (forall c, c <> b -> nth_error (heap s') c = nth_error (heap s) c) /\
    (pool_ok s -> pool_ok s').
Proof.
  intros Hx Hu. eexists. split; [apply (PutBuffer_normal b s x Hx Hu)|].
  unfold Reset. rewrite Hu. cbn [heap pool finalizers].
  split; [apply (load_update b x _ _ Hx)|].
  split; [reflexivity|]. split; [reflexivity|]. split.
  - intros c Hc. apply nth_error_update_other, Hc.
  - intros Hok. apply (pool_ok_update s b x _ Hok Hx).
    intros c [<-|Hin]; auto.
Qed.

Lemma PutBuffer_resets_and_pools_witness :
  exists s',
    PutBuffer 1 (mkWorld [mkBuffer 0 ""; mkBuffer 0 " ($1)"] [0%nat] []) = Ret s' /\
    nth_error (heap s') 1 = Some (mkBuffer 0 "") /\
    pool s' = [1%nat; 0%nat] /\
    finalizers s' = [] /\
    (forall c, c <> 1%nat ->
       nth_error (heap s') c
       = nth_error [mkBuffer 0 ""; mkBuffer 0 " ($1)"] c) /\
    (pool_ok (mkWorld [mkBuffer 0 ""; mkBuffer 0 " ($1)"] [0%nat] []) ->
     pool_ok s').
Proof.
  apply (PutBuffer_resets_and_pools 1
           (mkWorld [mkBuffer 0 ""; mkBuffer 0 " ($1)"] [0%nat] [])
           (mkBuffer 0 " ($1)")); reflexivity.
Defined.

Lemma nth_error_app_kept (h : list Buffer) (y : Buffer) (c : nat) (x : Buffer) :
  nth_error h c = Some x -> nth_error (h ++ [y])%list c = Some x.
Proof.
  intros H. rewrite nth_error_app1; [assumption|].
  apply nth_error_Some. congruence.
Qed.

Lemma nth_error_cut (l : list nat) (i b : nat) :
  nth_error l i = Some b ->
  l = (firstn i l ++ b :: skipn (S i) l)%list.
Proof.
  revert i. induction l as [|c l IH]; intros [|i] H; simpl in *;
    try discriminate.
  - injection H as ->. reflexivity.
  - f_equal. apply IH, H.
Qed.

(** X2. While the idle set holds only empty Normal buffers, whatever
    [sync.Pool] picks, [GetBuffer] hands out an allocated buffer that is
    empty and Normal. Either it comes out of the idle set, which loses
    that one entry while the heap stays as it is, or it is a new buffer at
    an address not allocated before, with the idle set unchanged. Every
    existing buffer is left as it is and the idle set still holds only
    empty Normal buffers. *)
Theorem GetBuffer_hands_out_idle (pick : option nat) (s : World) (b : nat)
    (s' : World) :
  pool_ok s -> GetBuffer pick s = (b, s') ->
  nth_error (heap s') b = Some (mkBuffer 0 "") /\
  heap_kept s s' /\
  finalizers s' = finalizers s /\
  pool_ok s' /\
  ((exists l1 l2, pool s = (l1 ++ b :: l2)%list /\
                  pool s' = (l1 ++ l2)%list /\ heap s' = heap s) \/
   (nth_error (heap s) b = None /\
    heap s' = (heap s ++ [mkBuffer 0 ""])%list /\ pool s' = pool s)).
Proof.
  intros Hok H.
  assert (Hfresh :
    (b, s') = (List.length (heap s),
               mkWorld (heap s ++ [mkBuffer 0 ""])%list (pool s)
                       (finalizers s)) ->
    nth_error (heap s') b = Some (mkBuffer 0 "") /\
    heap_kept s s' /\ finalizers s' = finalizers s /\ pool_ok s' /\
    ((exists l1 l2, pool s = (l1 ++ b :: l2)%list /\
                    pool s' = (l1 ++ l2)%list /\ heap s' = heap s) \/
     (nth_error (heap s) b = None /\
      heap s' = (heap s ++ [mkBuffer 0 ""])%list /\ pool s' = pool s))).
  { intros E. injection E as -> ->. cbn [heap pool finalizers].
    split; [|split; [|split; [|split]]].
    - rewrite nth_error_app2 by lia. rewrite Nat.sub_diag. reflexivity.
    - intros c x Hc. apply nth_error_app_kept, Hc.
    - reflexivity.
    - intros c Hc. cbn [pool heap] in *.
      destruct (Hok c Hc) as (x & Hx & Hu & Hb).
      exists x. split; [apply nth_error_app_kept, Hx | auto].
    - right. split; [|split; reflexivity].
      apply nth_error_None. lia. }
  unfold GetBuffer in H. cbv zeta in H.
  destruct pick as [i|]; [|apply Hfresh; symmetry; exact H].
  destruct (nth_error (pool s) i) as [c|] eqn:Hi;
    [|apply Hfresh; symmetry; exact H].
  injection H as <- <-. cbn [heap pool finalizers].
  pose proof (nth_error_cut _ _ _ Hi) as Hcut.
  assert (Hin : In c (pool s)) by (apply (nth_error_In _ _ Hi)).
  split; [|split; [|split; [|split]]].
  - destruct (Hok c Hin) as (x & Hx & Hu & Hb).
    rewrite Hx. f_equal. apply normal_empty_buffer; assumption.
  - intros d x Hd. exact Hd.
  - reflexivity.
  - intros d Hd. cbn [pool heap] in *. apply Hok.
    rewrite Hcut. apply in_app_or in Hd. apply in_or_app.
    destruct Hd as [Hd|Hd]; [left; exact Hd | right; right; exact Hd].
  - left. exists (firstn i (pool s)), (skipn (S i) (pool s)).
    split; [exact Hcut | split; reflexivity].
Qed.

Lemma GetBuffer_hands_out_idle_witness :
  (nth_error (heap (mkWorld [mkBuffer 1 "x"; mkBuffer 0 ""] [] [0%nat])) 1
   = Some (mkBuffer 0 "") /\
   heap_kept (mkWorld [mkBuffer 1 "x"; mkBuffer 0 ""] [1%nat] [0%nat])
             (mkWorld [mkBuffer 1 "x"; mkBuffer 0 ""] [] [0%nat]) /\
   finalizers (mkWorld [mkBuffer 1 "x"; mkBuffer 0 ""] [] [0%nat]) = [0%nat] /\
   pool_ok (mkWorld [mkBuffer 1 "x"; mkBuffer 0 ""] [] [0%nat]) /\
   ((exists l1 l2,
       pool (mkWorld [mkBuffer 1 "x"; mkBuffer 0 ""] [1%nat] [0%nat])
       = (l1 ++ 1%nat :: l2)%list /\
       pool (mkWorld [mkBuffer 1 "x"; mkBuffer 0 ""] [] [0%nat])
       = (l1 ++ l2)%list /\
       heap (mkWorld [mkBuffer 1 "x"; mkBuffer 0 ""] [] [0%nat])
       = heap (mkWorld [mkBuffer 1 "x"; mkBuffer 0 ""] [1%nat] [0%nat])) \/
    (nth_error (heap (mkWorld [mkBuffer 1 "x"; mkBuffer 0 ""] [1%nat] [0%nat])) 1
     = None /\
     heap (mkWorld [mkBuffer 1 "x"; mkBuffer 0 ""] [] [0%nat])
     = (heap (mkWorld [mkBuffer 1 "x"; mkBuffer 0 ""] [1%nat] [0%nat])
        ++ [mkBuffer 0 ""])%list /\
     pool (mkWorld [mkBuffer 1 "x"; mkBuffer 0 ""] [] [0%nat])
     = pool (mkWorld [mkBuffer 1 "x"; mkBuffer 0 ""] [1%nat] [0%nat])))).
Proof.
  apply (GetBuffer_hands_out_idle (Some 0%nat)
           (mkWorld [mkBuffer 1 "x"; mkBuffer 0 ""] [1%nat] [0%nat]) 1
           (mkWorld [mkBuffer 1 "x"; mkBuffer 0 ""] [] [0%nat])).
  - intros b [<-|[]]. exists (mkBuffer 0 ""). repeat split.
  - reflexivity.
Defined.

(** X3. The fast path of [UnsafeBytes]: on an empty buffer in the Normal
    state it returns the nil view and does exactly what [PutBuffer] does,
    so the buffer goes to the idle set and no finalizer is set; the flag
    stays 0, so calling it again returns again and puts the buffer into the
    idle set a second time. *)
Theorem UnsafeBytes_empty_releases (b : nat) (s : World) (x : Buffer) :
  nth_error (heap s) b = Some x -> unsafe x = 0 -> Len x = 0 ->
  exists s1 s2,
    PutBuffer b s = Ret s1 /\
    UnsafeBytes b s = Ret ("", s1) /\
    finalizers s1 = finalizers s /\
    pool s1 = b :: pool s /\
    UnsafeBytes b s1 = Ret ("", s2) /\
    pool s2 = b :: b :: pool s.
Proof.
  intros Hx Hu Hl.
  assert (Hfast : forall t y, nth_error (heap t) b = Some y -> unsafe y = 0 ->
            Len y = 0 ->
            UnsafeBytes b t
            = Ret ("", mkWorld (update b (Reset y) (heap t)) (b :: pool t)
                               (finalizers t))).
  { intros t y Hy Hyu Hyl. unfold UnsafeBytes, load. rewrite Hy. cbn [bind].
    rewrite Hyl. cbn [Z.eqb].
    rewrite (PutBuffer_normal b t y Hy Hyu). reflexivity. }
  set (s1 := mkWorld (update b (Reset x) (heap s)) (b :: pool s)
                     (finalizers s)).
  exists s1,
    (mkWorld (update b (Reset (Reset x)) (heap s1)) (b :: pool s1)
             (finalizers s1)).
  split; [apply (PutBuffer_normal b s x Hx Hu)|].
  split; [apply (Hfast s x Hx Hu Hl)|].
  split; [reflexivity|]. split; [reflexivity|].
  split; [|reflexivity].
  apply (Hfast s1 (Reset x)).
  - apply (load_update b x _ _ Hx).
  - exact Hu.
  - reflexivity.
Qed.

Lemma UnsafeBytes_empty_releases_witness :
  exists s1 s2,
    PutBuffer 0 (mkWorld [mkBuffer 0 ""] [] []) = Ret s1 /\
    UnsafeBytes 0 (mkWorld [mkBuffer 0 ""] [] []) = Ret ("", s1) /\
    finalizers s1 = [] /\
    pool s1 = [0%nat] /\
    UnsafeBytes 0 s1 = Ret ("", s2) /\
    pool s2 = [0%nat; 0%nat].
Proof.
  apply (UnsafeBytes_empty_releases 0 (mkWorld [mkBuffer 0 ""] [] [])
           (mkBuffer 0 "")); reflexivity.
Defined.

Lemma update_update (b : nat) (y z : Buffer) (h : list Buffer) :
  update b z (update b y h) = update b z h.
Proof.
  revert b. induction h as [|t h IH]; intros [|b]; simpl;
    try reflexivity.
  f_equal. apply IH.
Qed.

Lemma run_finalizer_escaped (b : nat) (s : World) (x : Buffer) :
  nth_error (heap s) b = Some x -> unsafe x = 1 ->
  run_finalizer b s
  = Ret (mkWorld (update b (mkBuffer 0 "") (heap s)) (b :: pool s)
                 (finalizers s)).
Proof.
  intros Hx Hu. unfold run_finalizer, CompareAndSwap, PutBuffer, load, store.
  rewrite Hx. cbn [bind]. rewrite Hu.
  cbn [Z.eqb Pos.eqb bind negb heap pool finalizers].
  rewrite (load_update b x _ _ Hx).
  cbn [bind unsafe Z.eqb negb Reset buf heap pool finalizers].
  rewrite update_update. reflexivity.
Qed.

(** X4. The whole escape: from a non-empty checked-out buffer in the
    Normal state, [UnsafeBytes] returns the contents and registers the
    finalizer, and the finalizer then returns; afterwards the buffer is
    empty, Normal and at the head of the idle set, no other buffer has
    changed, and the idle set still holds only empty Normal buffers. *)
Theorem escape_then_finalize (b : nat) (s : World) (x : Buffer) :
  nth_error (heap s) b = Some x -> unsafe x = 0 -> Len x <> 0 ->
  ~ In b (pool s) -> pool_ok s ->
  exists s1 s2,
    UnsafeBytes b s = Ret (buf x, s1) /\
    finalizers s1 = b :: finalizers s /\
    pool_ok s1 /\
    run_finalizer b s1 = Ret s2 /\
    nth_error (heap s2) b = Some (mkBuffer 0 "") /\
    pool s2 = b :: pool s /\
    (forall c, c <> b -> nth_error (heap s2) c = nth_error (heap s) c) /\
    pool_ok s2.
Proof.
  intros Hx Hu Hl Hout Hok.
  set (s1 := mkWorld (update b (mkBuffer 1 (buf x)) (heap s)) (pool s)
                     (b :: finalizers s)).
  assert (Hx1 : nth_error (heap s1) b = Some (mkBuffer 1 (buf x)))
    by (apply (load_update b x _ _ Hx)).
  exists s1,
    (mkWorld (update b (mkBuffer 0 "") (heap s1)) (b :: pool s1)
             (finalizers s1)).
  split; [apply (UnsafeBytes_first b s x Hx Hu Hl)|].
  split; [reflexivity|]. split.
  { intros c Hc. cbn [s1 pool heap] in *.
    assert (c <> b) by (intros ->; contradiction).
    rewrite nth_error_update_other by assumption. apply Hok, Hc. }
  split; [apply (run_finalizer_escaped b s1 _ Hx1 eq_refl)|].
  cbn [heap pool finalizers].
  split; [apply (load_update b _ _ _ Hx1)|].
  split; [reflexivity|]. split.
  - intros c Hc. cbn [s1 heap].
    rewrite !nth_error_update_other by assumption. reflexivity.
  - intros c Hc. cbn [s1 pool heap] in *.
    destruct (Nat.eq_dec c b) as [->|Hne].
    + exists (mkBuffer 0 ""). rewrite (load_update b _ _ _ Hx1). auto.
    + rewrite !nth_error_update_other by assumption.
      destruct Hc as [?|Hin]; [congruence|]. apply Hok, Hin.
Qed.

Lemma escape_then_finalize_witness :
  exists s1 s2,
    UnsafeBytes 0 (mkWorld [mkBuffer 0 " ($1)"] [] []) = Ret (" ($1)", s1) /\
    finalizers s1 = [0%nat] /\
    pool_ok s1 /\
    run_finalizer 0 s1 = Ret s2 /\
    nth_error (heap s2) 0 = Some (mkBuffer 0 "") /\
    pool s2 = [0%nat] /\
    (forall c, c <> 0%nat ->
       nth_error (heap s2) c = nth_error [mkBuffer 0 " ($1)"] c) /\
    pool_ok s2.
Proof.
  apply (escape_then_finalize 0 (mkWorld [mkBuffer 0 " ($1)"] [] [])
           (mkBuffer 0 " ($1)")).
  - reflexivity.
  - reflexivity.
  - vm_compute. discriminate.
  - simpl. tauto.
  - intros c [].
Defined.

(** X5. The finalizer checks the flag: it panics unless the flag is 1,
    and after it has run once on a buffer it panics when run again, so a
    buffer is not reclaimed twice for one escape. *)
Theorem finalizer_runs_once (b : nat) (s : World) (x : Buffer) :
  nth_error (heap s) b = Some x ->
  (unsafe x <> 1 -> run_finalizer b s = Panic "pools: Buffer.unsafe is not 1") /\
  (unsafe x = 1 ->
   exists s', run_finalizer b s = Ret s' /\
              run_finalizer b s' = Panic "pools: Buffer.unsafe is not 1").
Proof.
  intros Hx.
  assert (Hbad : forall t y, nth_error (heap t) b = Some y -> unsafe y <> 1 ->
            run_finalizer b t = Panic "pools: Buffer.unsafe is not 1").
  { intros t y Hy Hyu. unfold run_finalizer, CompareAndSwap, load.
    rewrite Hy. cbn [bind].
    destruct (Z.eqb_spec (unsafe y) 1); [contradiction | reflexivity]. }
  split.
  - apply (Hbad s x Hx).
  - intros Hu. eexists.
    split; [apply (run_finalizer_escaped b s x Hx Hu)|].
    apply (Hbad _ (mkBuffer 0 "")).
    + cbn [heap]. apply (load_update b x _ _ Hx).
    + simpl. lia.
Qed.

Lemma finalizer_runs_once_witness :
  run_finalizer 0 (mkWorld [mkBuffer 0 " ($1)"] [] [])
  = Panic "pools: Buffer.unsafe is not 1" /\
  (exists s', run_finalizer 0 (mkWorld [mkBuffer 1 " ($1)"] [] [0%nat]) = Ret s' /\
              run_finalizer 0 s' = Panic "pools: Buffer.unsafe is not 1").
Proof.
  split.
  - apply (proj1 (finalizer_runs_once 0 (mkWorld [mkBuffer 0 " ($1)"] [] [])
                    (mkBuffer 0 " ($1)") eq_refl)).
    simpl. lia.
  - apply (proj2 (finalizer_runs_once 0
                    (mkWorld [mkBuffer 1 " ($1)"] [] [0%nat])
                    (mkBuffer 1 " ($1)") eq_refl)).
    reflexivity.
Defined.

Lemma count_occ_cut (l1 l2 : list nat) (b : nat) :
  count_occ Nat.eq_dec (l1 ++ b :: l2)%list b
  = S (count_occ Nat.eq_dec (l1 ++ l2)%list b).
Proof.
  rewrite !count_occ_app. cbn [count_occ].
  destruct (Nat.eq_dec b b); [lia | contradiction].
Qed.

(** X6. [PutBuffer] does not notice a double release: on a buffer in the
    Normal state it returns both times and the idle set holds the buffer
    two more times than before. So when [GetBuffer] hands that buffer out,
    which the pool may do at once, one of the two entries is still in the
    idle set and the pool may hand the same buffer out again. *)
Theorem double_PutBuffer_aliases (b : nat) (s : World) (x : Buffer) :
  nth_error (heap s) b = Some x -> unsafe x = 0 ->
  exists s1 s2,
    PutBuffer b s = Ret s1 /\ PutBuffer b s1 = Ret s2 /\
    count_occ Nat.eq_dec (pool s2) b
    = S (S (count_occ Nat.eq_dec (pool s) b)) /\
    (exists pick s3, GetBuffer pick s2 = (b, s3)) /\
    (forall pick s3,
       GetBuffer pick s2 = (b, s3) ->
       count_occ Nat.eq_dec (pool s3) b = S (count_occ Nat.eq_dec (pool s) b) /\
       exists pick' s4, GetBuffer pick' s3 = (b, s4)).
Proof.
  intros Hx Hu.
  set (s1 := mkWorld (update b (Reset x) (heap s)) (b :: pool s)
                     (finalizers s)).
  set (s2 := mkWorld (update b (Reset (Reset x)) (heap s1)) (b :: pool s1)
                     (finalizers s1)).
  assert (Hx1 : nth_error (heap s1) b = Some (Reset x))
    by (apply (load_update b x _ _ Hx)).
  assert (Hx2 : nth_error (heap s2) b = Some (Reset (Reset x)))
    by (apply (load_update b _ _ _ Hx1)).
  assert (Hcount : count_occ Nat.eq_dec (pool s2) b
                   = S (S (count_occ Nat.eq_dec (pool s) b))).
  { cbn [s2 s1 pool count_occ].
    destruct (Nat.eq_dec b b); [reflexivity | contradiction]. }
  exists s1, s2.
  split; [apply (PutBuffer_normal b s x Hx Hu)|].
  split; [apply (PutBuffer_normal b s1 (Reset x) Hx1 Hu)|].
  split; [exact Hcount|]. split.
  - exists (Some 0%nat). eexists. reflexivity.
  - intros pick s3 H.
    assert (Hlt : (b < List.length (heap s2))%nat)
      by (apply nth_error_Some; congruence).
    assert (Hc3 : count_occ Nat.eq_dec (pool s3) b
                  = S (count_occ Nat.eq_dec (pool s) b)).
    { assert (Hcut2 : forall l1 l2, pool s2 = (l1 ++ b :: l2)%list ->
                count_occ Nat.eq_dec (l1 ++ l2)%list b
                = S (count_occ Nat.eq_dec (pool s) b)).
      { intros l1 l2 E. rewrite E, count_occ_cut in Hcount. lia. }
      unfold GetBuffer in H. cbv zeta in H.
      destruct pick as [i|];
        [|injection H as Hb _;
          change (List.length (heap s2) = b) in Hb; lia].
      destruct (nth_error (pool s2) i) as [c|] eqn:Hi;
        [|injection H as Hb _;
          change (List.length (heap s2) = b) in Hb; lia].
      pose proof (nth_error_cut _ _ _ Hi) as Hcut.
      injection H as -> <-.
      apply (Hcut2 _ _ Hcut). }
    split; [exact Hc3|].
    assert (Hin : In b (pool s3)).
    { apply (count_occ_In Nat.eq_dec). lia. }
    destruct (In_nth_error _ _ Hin) as [i Hi].
    exists (Some i). eexists. unfold GetBuffer. rewrite Hi. reflexivity.
Qed.

Lemma double_PutBuffer_aliases_witness :
  exists s1 s2,
    PutBuffer 0 (mkWorld [mkBuffer 0 " ($1)"] [] []) = Ret s1 /\
    PutBuffer 0 s1 = Ret s2 /\
    count_occ Nat.eq_dec (pool s2) 0%nat
    = S (S (count_occ Nat.eq_dec
              (pool (mkWorld [mkBuffer 0 " ($1)"] [] [])) 0%nat)) /\
    (exists pick s3, GetBuffer pick s2 = (0%nat, s3)) /\
    (forall pick s3,
       GetBuffer pick s2 = (0%nat, s3) ->
       count_occ Nat.eq_dec (pool s3) 0%nat
       = S (count_occ Nat.eq_dec
              (pool (mkWorld [mkBuffer 0 " ($1)"] [] [])) 0%nat) /\
       exists pick' s4, GetBuffer pick' s3 = (0%nat, s4)).
Proof.
  apply (double_PutBuffer_aliases 0 (mkWorld [mkBuffer 0 " ($1)"] [] [])
           (mkBuffer 0 " ($1)")); reflexivity.
Defined.

(* ================================================================== *)
(** ** Further properties: the width calculator and [grow] *)

(** X7. The open-ended scan of [totalWidth] never reads past the table:
    for every [n] and [add] the call returns, without a panic. *)
Theorem totalWidth_never_panics (n add : Z) :
  exists v, totalWidth n add = Ret v /\
            (n <= 0 -> v = add) /\ (table_max < n -> v = 0).
Proof.
  destruct (Z.le_gt_cases n 0) as [Hn|Hn].
  - exists add. split; [apply totalWidth_nonpositive, Hn|].
    split; [reflexivity | unfold table_max; lia].
  - destruct (Z.le_gt_cases n table_max) as [Hm|Hm].
    + eexists. split; [apply totalWidth_wrapped; lia|]. split; lia.
    + exists 0. split; [apply totalWidth_beyond, Hm|]. split; [lia | reflexivity].
Qed.

(** X8. [grow] never hands [Grow] a negative count, whatever its
    arguments and whatever wraps around: the request is computed without a
    panic and lies between 0 and the largest [int], so the panic
    ["bytes.Buffer.Grow: negative count"] is never raised. When the
    request does not wrap around it is
    [max 0 ((totalWidth(end-start+1, 3) + 2) * num - 2)]. *)
Theorem grow_request_never_negative (start end_ num : Z) (w : Buffer) :
  exists v n,
    totalWidth (Int.add (Int.sub end_ start) 1) 3 = Ret v /\
    grow_request start end_ num = Ret n /\
    0 <= n <= Int.max_int /\
    grow start end_ num w <> Panic "bytes.Buffer.Grow: negative count" /\
    (Int.in_range ((v + 2) * num - 2) ->
     n = Z.max ((v + 2) * num - 2) 0).
Proof.
  unfold grow, grow_request.
  destruct (totalWidth_returns (Int.add (Int.sub end_ start) 1) 3) as [v Hv].
  rewrite Hv. cbn [bind].
  pose proof (wrap_in_range (Int.mul (Int.add v 2) num - 2)) as Hr.
  change (Int.in_range (Int.sub (Int.mul (Int.add v 2) num) 2)) in Hr.
  exists v. eexists.
  split; [reflexivity|]. split; [reflexivity|].
  split; [|split].
  - rewrite clamp_max by exact Hr. unfold Int.in_range, Int.min_int in Hr.
    unfold Int.max_int in *. lia.
  - unfold Grow.
    pose proof (clamp_nonneg _ Hr) as Hc.
    destruct (Z.ltb_spec (clamp (Int.sub (Int.mul (Int.add v 2) num) 2)) 0);
      [lia | discriminate].
  - intros Hfit.
    pose proof (totalWidth_extra3_bounds _ _ Hv) as Hb.
    rewrite clamp_max by exact Hr. f_equal.
    unfold table_max, Int.in_range, Int.min_int, Int.max_int in *.
    rewrite (add_small v 2)
      by (unfold Int.in_range, Int.min_int, Int.max_int; lia).
    unfold Int.sub, Int.mul. rewrite wrap_sub_l.
    apply wrap_small. unfold Int.in_range, Int.min_int, Int.max_int. lia.
Qed.

Lemma grow_request_never_negative_witness :
  exists v n,
    totalWidth (Int.add (Int.sub 4 0) 1) 3 = Ret v /\
    grow_request 0 4 2 = Ret n /\
    0 <= n <= Int.max_int /\
    grow 0 4 2 empty_buffer <> Panic "bytes.Buffer.Grow: negative count" /\
    (Int.in_range ((v + 2) * 2 - 2) -> n = Z.max ((v + 2) * 2 - 2) 0).
Proof.
  apply (grow_request_never_negative 0 4 2 empty_buffer).
Defined.

(** X9. For an extra of at most 75 per item, and so for the 3 that [grow]
    passes, [totalWidth] never overflows: on every [n] of the table it is
    the exact brute-force sum, which lies between [n * (1 + add)] and
    [n * (17 + add)]. *)
Theorem totalWidth_exact_for_small_extra (n add : Z) :
  1 <= n <= table_max -> 0 <= add <= 75 ->
  totalWidth n add = Ret (brute_width (Z.to_nat n) add) /\
  n * (1 + add) <= brute_width (Z.to_nat n) add <= n * (17 + add).
Proof.
  intros Hn Ha.
  pose proof (brute_width_bounds add (Z.to_nat n)) as Hb.
  rewrite Z2Nat.id in Hb by lia. specialize (Hb ltac:(lia)).
  split; [|exact Hb].
  apply totalWidth_exact; [assumption|].
  unfold Int.in_range, Int.min_int, Int.max_int, table_max in *. nia.
Qed.

Lemma totalWidth_exact_for_small_extra_witness :
  totalWidth 1000 3 = Ret (brute_width (Z.to_nat 1000) 3) /\
  1000 * (1 + 3) <= brute_width (Z.to_nat 1000) 3 <= 1000 * (17 + 3).
Proof.
  apply totalWidth_exact_for_small_extra; unfold table_max; lia.
Defined.

(* ================================================================== *)
(** ** Further properties: the placeholder writers *)

Lemma extends_trans (a b c : Buffer) : extends a b -> extends b c -> extends a c.
Proof.
  intros [s ->] [t ->]. exists (s ++ t). apply appended_appended.
Qed.

Lemma WriteInterval_extends (fuel : nat) (start end_ num : Z) (w : Buffer)
    (e : option error) (w' : Buffer) :
  WriteInterval fuel start end_ num w = Ret (e, w') -> extends w w'.
Proof.
  unfold WriteInterval.
  destruct ((start <? 0) || (end_ <=? start) || (num =? 0)).
  { intros H. injection H as _ <-. apply extends_refl. }
  rewrite grow_returns. cbn [bind].
  destruct (WriteInterval_items fuel start end_ _) as [w1| |] eqn:E1;
    cbn [bind]; try discriminate.
  destruct (WriteInterval_loop fuel fuel start end_ _ _) as [w2| |] eqn:E2;
    cbn [bind]; try discriminate.
  intros H. injection H as _ <-.
  apply WriteInterval_items_extends in E1.
  apply WriteInterval_loop_extends in E2.
  rewrite WriteInt_appended, WriteString_appended in E1.
  do 2 apply extends_appended in E1.
  rewrite WriteByte_appended in E2. apply extends_appended in E2.
  apply (extends_trans _ _ _ E1 E2).
Qed.

Lemma WriteGroups_extends (fuel : nat) (offset groupLen groups : Z)
    (prefix : list Z) (w : Buffer) (e : option error) (w' : Buffer) :
  WriteGroups fuel offset groupLen groups prefix w = Ret (e, w') ->
  extends w w'.
Proof.
  unfold WriteGroups.
  destruct ((offset <? 0) || (groups =? 0)).
  { intros H. injection H as _ <-. apply extends_refl. }
  rewrite grow_returns. cbn [bind].
  destruct (writeGroup fuel prefix offset groupLen w) as [[len w1]| |] eqn:E1;
    cbn [bind]; try discriminate.
  destruct (WriteGroups_loop fuel fuel prefix _ groupLen _ w1)
    as [w2| |] eqn:E2; cbn [bind]; try discriminate.
  intros H. injection H as _ <-.
  apply writeGroup_extends in E1. apply WriteGroups_loop_extends in E2.
  apply (extends_trans _ _ _ E1 E2).
Qed.

(** X10. The writers only append: whenever [WriteGroups] or
    [WriteInterval] returns, with an error or without, on any arguments,
    the earlier contents of the buffer are still its beginning and the
    [unsafe] flag is untouched. *)
Theorem writers_only_append (fuel : nat) (offset groupLen groups : Z)
    (prefix : list Z) (start end_ num : Z) (w : Buffer) (e : option error)
    (w' : Buffer) :
  (WriteGroups fuel offset groupLen groups prefix w = Ret (e, w') ->
   unsafe w' = unsafe w /\ exists s, buf w' = buf w ++ s) /\
  (WriteInterval fuel start end_ num w = Ret (e, w') ->
   unsafe w' = unsafe w /\ exists s, buf w' = buf w ++ s).
Proof.
  split; intros H;
    [apply WriteGroups_extends in H | apply WriteInterval_extends in H];
    destruct H as [s ->]; (split; [reflexivity | exists s; reflexivity]).
Qed.

Lemma writers_only_append_witness :
  (unsafe (mkBuffer 0 "SELECT ($1, $2), ($1, $3)") = unsafe (mkBuffer 0 "SELECT") /\
   exists s, buf (mkBuffer 0 "SELECT ($1, $2), ($1, $3)")
             = buf (mkBuffer 0 "SELECT") ++ s) /\
  (unsafe (mkBuffer 0 "SELECT") = unsafe (mkBuffer 0 "SELECT") /\
   exists s, buf (mkBuffer 0 "SELECT") = buf (mkBuffer 0 "SELECT") ++ s).
Proof.
  split.
  - apply (proj1 (writers_only_append 10 2 1 2 [1] 0 0 0
                    (mkBuffer 0 "SELECT") None
                    (mkBuffer 0 "SELECT ($1, $2), ($1, $3)"))).
    reflexivity.
  - apply (proj2 (writers_only_append 10 2 1 2 [1] 3 3 1
                    (mkBuffer 0 "SELECT")
                    (Some (errors_New "invalid arguments to WriteInterval"))
                    (mkBuffer 0 "SELECT"))).
    reflexivity.
Defined.

Lemma group_text_single (prefix : list Z) (offset groupLen : Z) :
  groupLen <= 1 -> group_text prefix offset groupLen = single_group prefix offset.
Proof.
  intros Hg. unfold group_text, single_group, spec_list.
  replace (Z.to_nat (groupLen - 1)) with 0%nat by lia.
  rewrite concat_placeholders. cbn [tail_items map prefixed].
  rewrite ?append_assoc. reflexivity.
Qed.

Lemma more_groups_single (prefix : list Z) (groupLen : Z) (g : nat) :
  forall o offset,
    groupLen <= 1 ->
    (g <> 0%nat ->
     o = offset /\ Int.in_range offset /\
     Int.in_range (offset + (Z.of_nat g - 1) * groupLen)) ->
    more_groups g prefix o groupLen
    = prefixed ","
        (map (fun j => single_group prefix (offset + Z.of_nat j * groupLen))
             (seq 0 g)).
Proof.
  induction g as [|g IH]; intros o offset Hl Hb;
    cbn [more_groups seq map prefixed]; [reflexivity|].
  destruct Hb as (-> & Hlo & Hhi); [discriminate|].
  rewrite group_text_single by assumption.
  replace (offset + Z.of_nat 0 * groupLen) with offset by (simpl; ring).
  rewrite (IH _ (offset + groupLen)).
  - rewrite <- seq_shift, map_map.
    rewrite (map_ext
               (fun j => single_group prefix
                           (offset + groupLen + Z.of_nat j * groupLen))
               (fun j => single_group prefix
                           (offset + Z.of_nat (S j) * groupLen)));
      [reflexivity|].
    intros j. f_equal. rewrite Nat2Z.inj_succ. ring.
  - assumption.
  - intros Hg. unfold Int.in_range in *.
    assert (1 <= Z.of_nat g) by lia.
    assert (Hin : Int.min_int <= offset + groupLen <= Int.max_int) by nia.
    split; [apply add_small; exact Hin|]. split; [exact Hin | nia].
Qed.

(** X11. With [groupLen <= 1], zero and negative lengths included,
    every group is the prefix followed by one number, and that number moves
    by [groupLen] from group to group (it stays for 0 and counts down for a
    negative [groupLen]), as long as the numbers stay in the range of
    [int]. *)
Theorem WriteGroups_short_groups (fuel : nat) (offset groupLen groups : Z)
    (prefix : list Z) (w : Buffer) :
  0 <= offset <= Int.max_int -> groupLen <= 1 ->
  1 <= groups <= Int.max_int ->
  Int.in_range (offset + (groups - 1) * groupLen) ->
  (Z.to_nat groups <= fuel)%nat ->
  WriteGroups fuel offset groupLen groups prefix w
  = Ret (None,
         appended w
           (String.concat ","
              (map (fun j => single_group prefix
                               (offset + Z.of_nat j * groupLen))
                   (seq 0 (Z.to_nat groups))))).
Proof.
  intros Ho Hl Hg Hr Hf.
  assert (Hsub : Int.sub groups 1 = groups - 1).
  { apply sub_small. unfold Int.in_range, Int.min_int. lia. }
  rewrite WriteGroups_run;
    try (unfold Int.max_int in *; lia); try (rewrite ?Hsub; lia).
  rewrite Hsub, group_text_single by assumption.
  replace (Z.to_nat groups) with (S (Z.to_nat (groups - 1))) by lia.
  cbn [seq map]. rewrite concat_prefixed.
  replace (offset + Z.of_nat 0 * groupLen) with offset by (simpl; ring).
  rewrite (more_groups_single prefix groupLen _ _ (offset + groupLen)).
  - rewrite <- seq_shift, map_map.
    rewrite (map_ext
               (fun j => single_group prefix
                           (offset + groupLen + Z.of_nat j * groupLen))
               (fun j => single_group prefix
                           (offset + Z.of_nat (S j) * groupLen)));
      [reflexivity|].
    intros j. f_equal. rewrite Nat2Z.inj_succ. ring.
  - assumption.
  - intros Hne. rewrite Z2Nat.id by lia.
    unfold Int.in_range, Int.min_int in *.
    assert (2 <= groups) by lia.
    assert (Hin : -9223372036854775808 <= offset + groupLen <= Int.max_int)
      by nia.
    split; [apply add_small; exact Hin|]. split; [exact Hin|].
    replace (offset + groupLen + (groups - 1 - 1) * groupLen)
      with (offset + (groups - 1) * groupLen) by ring.
    exact Hr.
Qed.

Lemma WriteGroups_short_groups_witness :
  WriteGroups 10 5 (-1) 3 [] empty_buffer
  = Ret (None,
         appended empty_buffer
           (String.concat ","
              (map (fun j => single_group [] (5 + Z.of_nat j * -1))
                   (seq 0 (Z.to_nat 3))))) /\
  String.concat ","
    (map (fun j => single_group [] (5 + Z.of_nat j * -1)) (seq 0 (Z.to_nat 3)))
  = " ($5), ($4), ($3)".
Proof.
  split; [|reflexivity].
  apply WriteGroups_short_groups;
    unfold Int.in_range, Int.min_int, Int.max_int; simpl; lia.
Defined.

Lemma prefixed_app (sep : string) (l1 l2 : list string) :
  prefixed sep (l1 ++ l2)%list = prefixed sep l1 ++ prefixed sep l2.
Proof.
  induction l1 as [|x l1 IH]; cbn [List.app prefixed]; [reflexivity|].
  rewrite IH, ?append_assoc. reflexivity.
Qed.

Lemma concat_app (sep x y : string) (l1 l2 : list string) :
  String.concat sep ((x :: l1) ++ y :: l2)%list
  = String.concat sep (x :: l1) ++ sep ++ String.concat sep (y :: l2).
Proof.
  cbn [List.app]. rewrite !concat_prefixed, prefixed_app.
  cbn [prefixed]. rewrite ?append_assoc. reflexivity.
Qed.

Lemma spec_group_add (prefix : list Z) (offset groupLen : Z) (a j : nat) :
  spec_group prefix offset groupLen (a + j)
  = spec_group prefix (offset + Z.of_nat a * groupLen) groupLen j.
Proof.
  unfold spec_group.
  replace (offset + Z.of_nat (a + j) * groupLen)
    with (offset + Z.of_nat a * groupLen + Z.of_nat j * groupLen)
    by (rewrite Nat2Z.inj_add; ring).
  reflexivity.
Qed.

Lemma map_seq_from (A : Type) (f : nat -> A) (a n : nat) :
  map f (seq a n) = map (fun j => f (a + j)%nat) (seq 0 n).
Proof.
  revert f a. induction n as [|n IH]; intros f a; cbn [seq map]; [reflexivity|].
  rewrite Nat.add_0_r. f_equal.
  rewrite (IH f (S a)), (IH (fun j => f (a + j)%nat) 1%nat).
  apply map_ext. intros j. f_equal. lia.
Qed.

Lemma spec_WriteGroups_split (prefix : list Z) (offset groupLen g1 g2 : Z) :
  1 <= g1 -> 1 <= g2 ->
  spec_WriteGroups offset groupLen (g1 + g2) prefix
  = spec_WriteGroups offset groupLen g1 prefix ++ ","
    ++ spec_WriteGroups (offset + g1 * groupLen) groupLen g2 prefix.
Proof.
  intros H1 H2. unfold spec_WriteGroups.
  replace (Z.to_nat (g1 + g2)) with (Z.to_nat g1 + Z.to_nat g2)%nat by lia.
  rewrite seq_app, map_app. cbn [Nat.add].
  rewrite (map_seq_from _ _ (Z.to_nat g1)).
  rewrite (map_ext (fun j => spec_group prefix offset groupLen (Z.to_nat g1 + j))
                   (spec_group prefix (offset + g1 * groupLen) groupLen))
    by (intros j; rewrite spec_group_add, Z2Nat.id by lia; reflexivity).
  replace (Z.to_nat g1) with (S (Z.to_nat (g1 - 1))) by lia.
  replace (Z.to_nat g2) with (S (Z.to_nat (g2 - 1))) by lia.
  cbn [seq map]. apply concat_app.
Qed.

(** X12. [WriteGroups] can be split: writing [g1 + g2] groups gives the
    same buffer as writing [g1] groups, a comma, and then [g2] groups from
    the offset [offset + g1 * groupLen]. *)
Theorem WriteGroups_composes (fuel : nat) (offset groupLen g1 g2 : Z)
    (prefix : list Z) (w : Buffer) :
  0 <= offset -> 1 <= groupLen -> 1 <= g1 -> 1 <= g2 ->
  groupLen <= Int.max_int -> g1 + g2 <= Int.max_int ->
  offset + (g1 + g2) * groupLen - 1 <= Int.max_int ->
  (Z.to_nat groupLen <= fuel)%nat -> (Z.to_nat (g1 + g2) <= fuel)%nat ->
  exists w1,
    WriteGroups fuel offset groupLen g1 prefix w = Ret (None, w1) /\
    WriteGroups fuel offset groupLen (g1 + g2) prefix w
    = WriteGroups fuel (offset + g1 * groupLen) groupLen g2 prefix
        (WriteByte "," w1).
Proof.
  intros Ho Hl H1 H2 Hlm Hgm Hb Hfl Hfg.
  assert (Hrun : forall o g u,
            0 <= o -> 1 <= g -> g <= g1 + g2 ->
            o + g * groupLen - 1 <= Int.max_int ->
            WriteGroups fuel o groupLen g prefix u
            = Ret (None, appended u (spec_WriteGroups o groupLen g prefix))).
  { intros o g u Ho' Hg' Hgle Hb'.
    assert (Hsub : Int.sub g 1 = g - 1).
    { apply sub_small. unfold Int.in_range, Int.min_int. lia. }
    rewrite WriteGroups_run; try assumption; try (rewrite ?Hsub; lia).
    rewrite WriteGroups_text_exact by (assumption || lia). reflexivity. }
  eexists. split; [apply Hrun; nia|].
  rewrite !Hrun by nia.
  rewrite WriteByte_appended, !appended_appended.
  rewrite spec_WriteGroups_split by assumption.
  rewrite ?append_assoc. reflexivity.
Qed.

Lemma WriteGroups_composes_witness :
  exists w1,
    WriteGroups 10 1 2 1 [] empty_buffer = Ret (None, w1) /\
    WriteGroups 10 1 2 (1 + 2) [] empty_buffer
    = WriteGroups 10 (1 + 1 * 2) 2 2 [] (WriteByte "," w1).
Proof.
  apply WriteGroups_composes; unfold Int.max_int; simpl; lia.
Defined.

(** X13. One repetition of [WriteInterval] is one group of
    [WriteGroups]: [WriteInterval(start, end, 1)] and
    [WriteGroups(start, end-start+1, 1)] append the same text,
    [" ($start, ..., $end)"]. *)
Theorem WriteInterval_once_is_one_group (fuel : nat) (start end_ : Z)
    (w : Buffer) :
  0 <= start -> start < end_ -> end_ < Int.max_int ->
  (Z.to_nat (end_ - start) < fuel)%nat ->
  WriteInterval fuel start end_ 1 w
  = Ret (None,
         appended w (" " ++ spec_list
                              (zrange start (Z.to_nat (end_ - start + 1))))) /\
  WriteGroups fuel start (end_ - start + 1) 1 [] w
  = WriteInterval fuel start end_ 1 w.
Proof.
  intros Hs Hse He Hf.
  assert (Hone : Z.to_nat (Int.sub 1 1) = 0%nat) by reflexivity.
  rewrite WriteInterval_run by (rewrite ?Hone; lia).
  rewrite WriteGroups_run
    by (rewrite ?Hone; try lia;
        replace (end_ - start + 1 - 1) with (end_ - start) by ring; lia).
  rewrite Hone. cbn [repeat_text more_groups]. rewrite !append_nil_r.
  rewrite interval_text_exact by (unfold Int.min_int; lia).
  rewrite group_text_exact by (unfold Int.min_int; lia).
  split; reflexivity.
Qed.

Lemma WriteInterval_once_is_one_group_witness :
  WriteInterval 10 1 5 1 empty_buffer
  = Ret (None,
         appended empty_buffer
           (" " ++ spec_list (zrange 1 (Z.to_nat (5 - 1 + 1))))) /\
  WriteGroups 10 1 (5 - 1 + 1) 1 [] empty_buffer
  = WriteInterval 10 1 5 1 empty_buffer.
Proof.
  apply WriteInterval_once_is_one_group; unfold Int.max_int; simpl; lia.
Defined.

Lemma repeat_text_app (s : string) (m n : nat) :
  repeat_text (m + n) s = repeat_text m s ++ repeat_text n s.
Proof.
  induction m as [|m IH]; cbn [Nat.add repeat_text]; [reflexivity|].
  rewrite IH, ?append_assoc. reflexivity.
Qed.

(** X14. [WriteInterval] can be split the same way, with the same bare
    comma as [WriteGroups]: writing the interval [a + b] times gives the
    same buffer as writing it [a] times, a comma, and [b] times more. The
    [", ("] of [WriteInterval] and the [","] and [" ("] of [WriteGroups]
    are the same bytes. *)
Theorem WriteInterval_composes (fuel : nat) (start end_ a b : Z)
    (w : Buffer) :
  0 <= start -> start < end_ -> end_ <= Int.max_int ->
  1 <= a -> 1 <= b -> a + b <= Int.max_int ->
  (Z.to_nat (end_ - start) < fuel)%nat -> (Z.to_nat (a + b) <= fuel)%nat ->
  exists w1,
    WriteInterval fuel start end_ a w = Ret (None, w1) /\
    WriteInterval fuel start end_ (a + b) w
    = WriteInterval fuel start end_ b (WriteByte "," w1).
Proof.
  intros Hs Hse He Ha Hb Hab Hfe Hfn.
  assert (Hrun : forall n u,
            1 <= n -> n <= a + b ->
            WriteInterval fuel start end_ n u
            = Ret (None,
                   appended u (" " ++ interval_text start end_
                               ++ repeat_text (Z.to_nat (n - 1))
                                    (", " ++ interval_text start end_)))).
  { intros n u Hn Hle.
    assert (Hsub : Int.sub n 1 = n - 1).
    { apply sub_small. unfold Int.in_range, Int.min_int. lia. }
    rewrite WriteInterval_run; try assumption; try (rewrite ?Hsub; lia).
    rewrite Hsub. reflexivity. }
  eexists. split; [apply Hrun; lia|].
  rewrite !Hrun by lia.
  rewrite WriteByte_appended, !appended_appended.
  replace (Z.to_nat (a + b - 1))
    with (Z.to_nat (a - 1) + S (Z.to_nat (b - 1)))%nat by lia.
  rewrite repeat_text_app. cbn [repeat_text].
  rewrite ?append_assoc. reflexivity.
Qed.

Lemma WriteInterval_composes_witness :
  exists w1,
    WriteInterval 10 0 4 1 empty_buffer = Ret (None, w1) /\
    WriteInterval 10 0 4 (1 + 1) empty_buffer
    = WriteInterval 10 0 4 1 (WriteByte "," w1).
Proof.
  apply WriteInterval_composes; unfold Int.max_int; simpl; lia.
Defined.

(* ================================================================== *)
(** ** Further properties: the reservation against the bytes written *)

Lemma length_prefixed_cons (v : Z) (l : list Z) :
  Z.of_nat (String.length (prefixed ", " (map placeholder (v :: l))))
  = 3 + digits v
    + Z.of_nat (String.length (prefixed ", " (map placeholder l))).
Proof.
  cbn [map prefixed]. unfold placeholder, digits.
  rewrite !length_append. simpl String.length. lia.
Qed.

Lemma length_repeat_text (s : string) (n : nat) :
  String.length (repeat_text n s) = (n * String.length s)%nat.
Proof.
  induction n as [|n IH]; cbn [repeat_text]; [reflexivity|].
  rewrite length_append, IH. lia.
Qed.

Lemma prefixed_range_brute (k : nat) :
  forall a : nat,
    Z.of_nat (String.length
                (prefixed ", " (map placeholder (zrange (Z.of_nat (S a)) k))))
    + brute_width a 3
    = brute_width (a + k) 3.
Proof.
  induction k as [|k IH]; intros a.
  - rewrite Nat.add_0_r. simpl. lia.
  - cbn [zrange]. rewrite length_prefixed_cons.
    replace (Z.of_nat (S a) + 1) with (Z.of_nat (S (S a))) by lia.
    specialize (IH (S a)). cbn [brute_width] in IH.
    replace (a + S k)%nat with (S a + k)%nat by lia. lia.
Qed.

Lemma digits_mono (i j : Z) :
  1 <= i -> i <= j -> j <= Int.max_int -> digits i <= digits j.
Proof.
  unfold Int.max_int. intros Hi Hij Hj.
  assert (Hp : 9223372036854775807 < 10 ^ Z.of_nat 19) by reflexivity.
  destruct (bracket_exists 19 i) as (e & He & Hbe); [lia|].
  destruct (bracket_exists 19 j) as (f & Hf & Hbf); [lia|].
  rewrite (digits_bracket e i), (digits_bracket f j) by (lia || assumption).
  destruct (Nat.le_gt_cases e f) as [|Hlt]; [lia|].
  assert (10 ^ Z.of_nat (S f) <= 10 ^ Z.of_nat e)
    by (apply Z.pow_le_mono_r; lia).
  lia.
Qed.

Lemma prefixed_range_mono (k : nat) :
  forall a c,
    1 <= a -> a <= c -> c + Z.of_nat k - 1 <= Int.max_int ->
    Z.of_nat (String.length (prefixed ", " (map placeholder (zrange a k))))
    <= Z.of_nat (String.length (prefixed ", " (map placeholder (zrange c k)))).
Proof.
  induction k as [|k IH]; intros a c Ha Hac Hc; [simpl; lia|].
  cbn [zrange]. rewrite !length_prefixed_cons.
  pose proof (digits_mono a c Ha Hac ltac:(lia)).
  specialize (IH (a + 1) (c + 1) ltac:(lia) ltac:(lia) ltac:(lia)). lia.
Qed.

Lemma length_spec_list (v : Z) (l : list Z) :
  Z.of_nat (String.length (spec_list (v :: l)))
  = 3 + digits v
    + Z.of_nat (String.length (prefixed ", " (map placeholder l))).
Proof.
  unfold spec_list. cbn [map]. rewrite concat_prefixed.
  unfold placeholder, digits. rewrite !length_append.
  simpl String.length. lia.
Qed.

Lemma interval_text_length (start end_ : Z) :
  1 <= start -> start < end_ -> end_ <= Int.max_int ->
  brute_width (Z.to_nat (end_ - start + 1)) 3
  <= Z.of_nat (String.length (interval_text start end_)) /\
  (start = 1 ->
   Z.of_nat (String.length (interval_text start end_))
   = brute_width (Z.to_nat (end_ - start + 1)) 3).
Proof.
  intros Hs Hse He.
  rewrite interval_text_exact by (unfold Int.min_int; lia).
  replace (Z.to_nat (end_ - start + 1)) with (S (Z.to_nat (end_ - start)))
    by lia.
  set (k := Z.to_nat (end_ - start)).
  cbn [zrange]. rewrite length_spec_list.
  pose proof (prefixed_range_brute k 1) as Hsum.
  change (Z.of_nat 2) with 2 in Hsum.
  change (brute_width 1 3) with (0 + (digits 1 + 3)) in Hsum.
  change (1 + k)%nat with (S k) in Hsum.
  split.
  - pose proof (digits_mono 1 start ltac:(lia) Hs ltac:(lia)).
    pose proof (prefixed_range_mono k 2 (start + 1) ltac:(lia) ltac:(lia)
                  ltac:(lia)).
    lia.
  - intros ->. change (1 + 1) with 2. lia.
Qed.

(** X15. For [WriteInterval] with [start >= 1] the reservation of
    [grow] is always too small: when the request
    [(totalWidth(end-start+1, 3) + 2) * num - 2] does not overflow, the
    call writes at least one byte more than it reserved, and exactly one
    more when [start] is 1. *)
Theorem WriteInterval_reservation_short (fuel : nat) (start end_ num : Z)
    (w : Buffer) :
  1 <= start -> start < end_ -> end_ <= Int.max_int ->
  end_ - start + 1 <= table_max -> 1 <= num ->
  (brute_width (Z.to_nat (end_ - start + 1)) 3 + 2) * num <= Int.max_int ->
  (Z.to_nat (end_ - start) < fuel)%nat -> (Z.to_nat num <= fuel)%nat ->
  exists r w',
    grow_request start end_ num = Ret r /\
    r = (brute_width (Z.to_nat (end_ - start + 1)) 3 + 2) * num - 2 /\
    WriteInterval fuel start end_ num w = Ret (None, w') /\
    r + 1 <= written w w' /\
    (start = 1 -> written w w' = r + 1).
Proof.
  intros Hs Hse He Hn Hnum Hfit Hfe Hfn.
  set (n := end_ - start + 1) in *.
  set (B := brute_width (Z.to_nat n) 3) in *.
  pose proof (brute_width_bounds 3 (Z.to_nat n)) as HB.
  rewrite Z2Nat.id in HB by lia. specialize (HB Hn). fold B in HB.
  assert (Hnm : num <= Int.max_int) by nia.
  assert (Hsub : Int.sub num 1 = num - 1).
  { apply sub_small. unfold Int.in_range, Int.min_int. lia. }
  destruct (interval_text_length start end_ Hs Hse He) as [Hlen Heq].
  fold n in Hlen, Heq. fold B in Hlen, Heq.
  set (T := interval_text start end_) in *.
  do 2 eexists.
  split; [|split; [reflexivity|split]].
  - unfold grow_request.
    rewrite (sub_small end_ start)
      by (unfold Int.in_range, Int.min_int; lia).
    rewrite (add_small (end_ - start) 1)
      by (unfold Int.in_range, Int.min_int; lia).
    fold n.
    rewrite totalWidth_exact
      by (unfold Int.in_range, Int.min_int, Int.max_int, table_max in *;
          fold B; lia).
    cbn [bind]. fold B.
    rewrite (add_small B 2)
      by (unfold Int.in_range, Int.min_int, Int.max_int, table_max in *; lia).
    unfold Int.mul.
    rewrite (wrap_small ((B + 2) * num))
      by (unfold Int.in_range, Int.min_int in *; nia).
    rewrite (sub_small ((B + 2) * num) 2)
      by (unfold Int.in_range, Int.min_int in *; nia).
    rewrite clamp_nonneg_case by nia. reflexivity.
  - apply WriteInterval_run; try assumption; try (rewrite ?Hsub; lia).
  - rewrite written_appended, Hsub. fold T.
    rewrite !length_append, length_repeat_text, length_append.
    change (String.length " ") with 1%nat.
    change (String.length ", ") with 2%nat.
    rewrite !Nat2Z.inj_add, Nat2Z.inj_mul, !Nat2Z.inj_add, Z2Nat.id by lia.
    change (Z.of_nat 1) with 1. change (Z.of_nat 2) with 2.
    split.
    + nia.
    + intros H1. rewrite (Heq H1). ring.
Qed.

Lemma WriteInterval_reservation_short_witness :
  exists r w',
    grow_request 1 5 1 = Ret r /\
    r = (brute_width (Z.to_nat (5 - 1 + 1)) 3 + 2) * 1 - 2 /\
    WriteInterval 10 1 5 1 empty_buffer = Ret (None, w') /\
    r + 1 <= written empty_buffer w' /\
    (1 = 1 -> written empty_buffer w' = r + 1).
Proof.
  apply WriteInterval_reservation_short;
    unfold Int.max_int, table_max; simpl; lia.
Defined.
